(** * Scanner CLI: the decision layer of [scanner_cli]

    A shallow embedding of [scanner_cli/main.py] and [scanner_cli/config.py]:
    the input sanitizer, the restricted arithmetic evaluator, mode resolution
    and the session loop with its idle timer, followed by the properties the
    specification states about them.

    Python strings are sequences of Unicode code points and are modelled as
    lists of code points; Python [int] is [Z]; Python [float] is the
    binary64 type of the standard library. *)

From Stdlib Require Import List ZArith NArith Bool Lia String Ascii Floats.
From Stdlib Require Import DecimalString.
Import ListNotations.
Local Open Scope list_scope.

(** ** Python strings *)

Definition char := N.
Definition pystr := list char.

(** [str "..."] is the Python string with the given ASCII text. *)
Definition str (s : string) : pystr :=
  List.map N_of_ascii (list_ascii_of_string s).

Fixpoint eqb_str (a b : pystr) : bool :=
  match a, b with
  | [], [] => true
  | x :: a', y :: b' => N.eqb x y && eqb_str a' b'
  | _, _ => false
  end.

Definition in_range (lo hi : N) (c : char) : bool :=
  (N.leb lo c && N.leb c hi)%bool.

(** [c in s] for a one-character [c]. *)
Definition char_in (c : char) (s : pystr) : bool := existsb (N.eqb c) s.

(** [x in xs] for a list of strings. *)
Definition str_in (x : pystr) (xs : list pystr) : bool := existsb (eqb_str x) xs.

(** [str.isspace] on one code point: the code points [str.strip()] removes. *)
Definition is_space (c : char) : bool :=
  (in_range 9 13 c || in_range 28 32 c || N.eqb c 133 || N.eqb c 160
   || N.eqb c 5760 || in_range 8192 8202 c || N.eqb c 8232 || N.eqb c 8233
   || N.eqb c 8239 || N.eqb c 8287 || N.eqb c 12288)%bool.

Fixpoint lstrip (s : pystr) : pystr :=
  match s with
  | c :: s' => if is_space c then lstrip s' else s
  | [] => []
  end.

Definition rstrip (s : pystr) : pystr := rev (lstrip (rev s)).

(** [s.strip()] *)
Definition strip (s : pystr) : pystr := rstrip (lstrip s).

(** [s.startswith(pref)] *)
Fixpoint startswith (s pref : pystr) : bool :=
  match pref, s with
  | [], _ => true
  | p :: pref', c :: s' => N.eqb c p && startswith s' pref'
  | _ :: _, [] => false
  end.

(** ** Sanitizer ([sanitize_input]) *)

Module Re.

(** The regular expressions this program uses are sequences of character
    classes, each taken once or starred. *)
Inductive piece :=
| One (cls : char -> bool)
| Star (cls : char -> bool).

(** [match_here ps s] is the length of the match of [ps] at the start of
    [s] that a backtracking matcher finds first: a star takes as many
    characters as it can and gives them back one at a time when the rest of
    the pattern fails. *)
Fixpoint match_here (ps : list piece) (s : pystr) {struct ps} : option nat :=
  match ps with
  | [] => Some O
  | One cls :: ps' =>
      match s with
      | c :: s' => if cls c then option_map S (match_here ps' s') else None
      | [] => None
      end
  | Star cls :: ps' =>
      (fix star (s : pystr) : option nat :=
         match s with
         | c :: s' =>
             if cls c then
               match star s' with
               | Some n => Some (S n)
               | None => match_here ps' s
               end
             else match_here ps' s
         | [] => match_here ps' []
         end) s
  end.

(** [re.sub(ps, "", s)]: every leftmost non-overlapping match is deleted.
    [skip] counts the characters of the current match still to drop. *)
Fixpoint sub_empty (ps : list piece) (skip : nat) (s : pystr) : pystr :=
  match s with
  | [] => []
  | c :: s' =>
      match skip with
      | S k => sub_empty ps k s'
      | O =>
          match match_here ps s with
          | Some (S n) => sub_empty ps n s'
          | _ => c :: sub_empty ps O s'
          end
      end
  end.

End Re.

Definition ESC : char := 27%N.

(** [re.compile(r"\x1B\[[0-?]*[ -/]*[@-~]")] *)
Definition _ANSI_CSI_RE : list Re.piece :=
  [ Re.One (N.eqb ESC); Re.One (N.eqb 91);
    Re.Star (in_range 48 63); Re.Star (in_range 32 47);
    Re.One (in_range 64 126) ].

(** [s.replace(c, "")] for a one-character [c]. *)
Definition replace_empty (c : char) (s : pystr) : pystr :=
  filter (fun x => negb (N.eqb x c)) s.

Definition sanitize_input (value : pystr) : pystr :=
  match value with
  | [] => value
  | _ =>
      let cleaned := Re.sub_empty _ANSI_CSI_RE O value in
      replace_empty ESC cleaned
  end.

(** ** Expression trees (the nodes of Python's [ast] module) *)

Inductive operator :=
| Add | Sub | Mult | MatMult | Div | Mod | Pow
| LShift | RShift | BitOr | BitXor | BitAnd | FloorDiv.

Inductive unaryop := Invert | Not | UAdd | USub.

(** The value of an [ast.Constant]: an [int], a [float], or any other
    constant (a string, [Ellipsis], a complex number, ...), kept by its
    [repr]. *)
Inductive constant :=
| CInt (n : Z)
| CFloat (f : float)
| COther (repr : pystr).

(** Expressions.  [OtherExpr kind] stands for a node of any other class
    ([Name], [Call], [Compare], [Tuple], ...): the check below stops at such
    a node, before it would reach the node's children. *)
Inductive expr :=
| BinOp (left : expr) (op : operator) (right : expr)
| UnaryOp (op : unaryop) (operand : expr)
| Constant (value : constant)
| OtherExpr (kind : string).

(** What [ast.walk] yields: the [Expression] root, expressions, and the
    operator objects, which are nodes too. *)
Inductive node :=
| N_Expression (body : expr)
| N_expr (e : expr)
| N_operator (op : operator)
| N_unaryop (op : unaryop).

(** [ast.iter_child_nodes] *)
Definition iter_child_nodes (n : node) : list node :=
  match n with
  | N_Expression body => [N_expr body]
  | N_expr (BinOp l op r) => [N_expr l; N_operator op; N_expr r]
  | N_expr (UnaryOp op e) => [N_unaryop op; N_expr e]
  | _ => []
  end.

Fixpoint expr_count (e : expr) : nat :=
  match e with
  | BinOp l _ r => S (expr_count l + 1 + expr_count r)
  | UnaryOp _ e' => S (1 + expr_count e')
  | _ => 1
  end.

Definition node_count (n : node) : nat :=
  match n with
  | N_Expression body => S (expr_count body)
  | N_expr e => expr_count e
  | _ => 1
  end.

(** [ast.walk]: breadth first, with a queue ([todo.popleft()], then
    [todo.extend(iter_child_nodes(node))]).  The loop runs once per node, so
    the number of nodes is the fuel. *)
Fixpoint walk_queue (fuel : nat) (todo : list node) : list node :=
  match fuel, todo with
  | S fuel', n :: todo' => n :: walk_queue fuel' (todo' ++ iter_child_nodes n)
  | _, _ => []
  end.

Definition walk (tree : node) : list node := walk_queue (node_count tree) [tree].

(** ** Values and exceptions *)

Inductive value :=
| VInt (n : Z)
| VFloat (f : float)
| VOther (repr : pystr).

Inductive exn :=
| ValueError (msg : string)
| SyntaxError
| ZeroDivisionError
| OverflowError
| OtherException (name : string).

Inductive result (A : Type) :=
| Returns (a : A)
| Raises (e : exn).
Arguments Returns {A} a.
Arguments Raises {A} e.

(** The Python runtime that [main.py] calls into.  It is left abstract:
    what it answers depends on the interpreter at hand. *)
Class PyRuntime := {
  (** [ast.parse(expr, mode="eval")]: the body of the [Expression]. *)
  ast_parse : pystr -> result expr;
  (** [eval(compile(tree, "<expr>", "eval"), {"__builtins__": {}}, {})] *)
  py_eval : expr -> result value;
  (** [str(value)] *)
  py_str : value -> result pystr
}.

(** ** The evaluator ([_eval_mathops]) *)

Definition disallowed_chars : pystr :=
  str "abcdefghijklmnopqrstuvwxyzABCDEFGHIJKLMNOPQRSTUVWXYZ_[]{};:\'".

(** [isinstance(node, allowed_nodes)]; [ast.Paren] does not exist and
    [ast.Load] only occurs below nodes that are not allowed. *)
Definition allowed_node (n : node) : bool :=
  match n with
  | N_Expression _ => true
  | N_expr (BinOp _ _ _) | N_expr (UnaryOp _ _) | N_expr (Constant _) => true
  | N_expr (OtherExpr _) => false
  | N_operator (Add | Sub | Mult | Div | FloorDiv | Mod | Pow) => true
  | N_operator _ => false
  | N_unaryop (USub | UAdd) => true
  | N_unaryop _ => false
  end.

(** [type(node).__name__] *)
Definition type_name (n : node) : string :=
  match n with
  | N_Expression _ => "Expression"
  | N_expr (BinOp _ _ _) => "BinOp"
  | N_expr (UnaryOp _ _) => "UnaryOp"
  | N_expr (Constant _) => "Constant"
  | N_expr (OtherExpr kind) => kind
  | N_operator op =>
      match op with
      | Add => "Add" | Sub => "Sub" | Mult => "Mult" | MatMult => "MatMult"
      | Div => "Div" | Mod => "Mod" | Pow => "Pow" | LShift => "LShift"
      | RShift => "RShift" | BitOr => "BitOr" | BitXor => "BitXor"
      | BitAnd => "BitAnd" | FloorDiv => "FloorDiv"
      end
  | N_unaryop op =>
      match op with
      | Invert => "Invert" | Not => "Not" | UAdd => "UAdd" | USub => "USub"
      end
  end.

Definition magnitude_bound : Z := 10 ^ 12.

(** [abs(v) > 10**12] on an [int] and on a [float] (a comparison with a NaN
    is false). *)
Definition int_too_large (v : Z) : bool := (Z.abs v >? magnitude_bound)%Z.
Definition float_too_large (f : float) : bool :=
  PrimFloat.ltb 1000000000000%float (abs f).

(** The body of [for node in ast.walk(tree)]: the first node that fails a
    test raises. *)
Fixpoint check_nodes (nodes : list node) : option exn :=
  match nodes with
  | [] => None
  | n :: rest =>
      if negb (allowed_node n) then
        Some (ValueError ("disallowed node " ++ type_name n))
      else
        match n with
        | N_expr (Constant (CInt v)) =>
            if int_too_large v then Some (ValueError "integer too large")
            else check_nodes rest
        | N_expr (Constant (CFloat f)) =>
            if float_too_large f then Some (ValueError "float too large")
            else check_nodes rest
        | _ => check_nodes rest
        end
  end.

(** [f.is_integer()] and [int(f)] together: the integer a float equals, if
    it is finite and has no fractional part. *)
Definition float_as_integer (f : float) : option Z :=
  match Prim2SF f with
  | S754_zero _ => Some 0%Z
  | S754_finite s m e =>
      let mag :=
        if (0 <=? e)%Z then Some (Zpos m * 2 ^ e)%Z
        else if (Zpos m mod 2 ^ (- e) =? 0)%Z then Some (Zpos m / 2 ^ (- e))%Z
        else None in
      option_map (fun z => if s then (- z)%Z else z) mag
  | _ => None
  end.

Definition is_empty (s : pystr) : bool :=
  match s with [] => true | _ => false end.

Definition _eval_mathops `{PyRuntime} (expr : pystr) : result value :=
  let expr := strip expr in
  if is_empty expr then Raises (ValueError "empty expression")
  else if existsb (fun c => char_in c expr) disallowed_chars then
    Raises (ValueError "disallowed characters")
  else
    match ast_parse expr with
    | Raises SyntaxError => Raises (ValueError "syntax error")
    | Raises e => Raises e
    | Returns tree =>
        match check_nodes (walk (N_Expression tree)) with
        | Some e => Raises e
        | None =>
            match py_eval tree with
            | Returns (VFloat f) =>
                match float_as_integer f with
                | Some z => Returns (VInt z)
                | None => Returns (VFloat f)
                end
            | r => r
            end
        end
    end.

(** ** A reference fragment of the Python runtime

    To run [_eval_mathops] on concrete texts, this module gives the part of
    the runtime that plain arithmetic needs, as partial functions: [Some]
    is what CPython answers, [None] makes no statement.  Covered are
    expressions of at most [max_tokens] tokens over decimal integer and
    point-float literals, [+ - * / // % **], unary [+ -], parentheses, blanks
    and tabs; integer arithmetic; and float arithmetic where one IEEE
    operation on exactly represented operands gives the result. *)

Module Fragment.

Inductive token :=
| T_INT (n : Z)
| T_FLOAT (f : float)
| T_OP (op : operator)
| T_LPAR
| T_RPAR.

(** A number being read: not in one, in the integer part, or after the
    point. *)
Inductive numstate :=
| NoNum
| IntPart (digits : list Z)
| FracPart (int_digits frac_digits : list Z).

Definition is_digit (c : char) : bool := in_range 48 57 c.
Definition digit_val (c : char) : Z := Z.of_N (c - 48).

(** Digits are kept most significant first. *)
Definition digits_val (ds : list Z) : Z :=
  fold_left (fun acc d => 10 * acc + d)%Z ds 0%Z.

Definition two_53 : Z := 2 ^ 53.

(** [float(n)] for an [int] that a float represents exactly. *)
Definition float_of_Z (z : Z) : option float :=
  if (Z.abs z <=? two_53)%Z then
    let m := of_uint63 (Uint63.of_Z (Z.abs z)) in
    Some (if (z <? 0)%Z then opp m else m)
  else None.

(** The token a finished number gives.  [012] is a syntax error, [00] is
    zero, [012.5] is a float.  A point float [m / 10^k] with [m <= 2^53] and
    [k <= 22] is one correctly rounded division. *)
Definition flush (st : numstate) : option (list token) :=
  match st with
  | NoNum => Some []
  | IntPart ds =>
      match ds with
      | 0%Z :: _ :: _ =>
          if forallb (Z.eqb 0) ds then Some [T_INT 0] else None
      | _ => Some [T_INT (digits_val ds)]
      end
  | FracPart [] [] => None
  | FracPart i f =>
      let m := digits_val (i ++ f) in
      let k := List.length f in
      if (k <=? 22)%nat then
        match float_of_Z m, float_of_Z (10 ^ Z.of_nat k) with
        | Some fm, Some fk => Some [T_FLOAT (fm / fk)%float]
        | _, _ => None
        end
      else None
  end.

Definition emit (st : numstate) (t : list token) (rest : option (list token))
  : option (list token) :=
  match flush st, rest with
  | Some n, Some ts => Some (n ++ t ++ ts)
  | _, _ => None
  end.

Fixpoint tokenize (st : numstate) (s : pystr) : option (list token) :=
  match s with
  | [] => flush st
  | c :: s' =>
      if is_digit c then
        match st with
        | NoNum => tokenize (IntPart [digit_val c]) s'
        | IntPart ds => tokenize (IntPart (ds ++ [digit_val c])) s'
        | FracPart i f => tokenize (FracPart i (f ++ [digit_val c])) s'
        end
      else if N.eqb c 46 then
        match st with
        | NoNum => tokenize (FracPart [] []) s'
        | IntPart ds => tokenize (FracPart ds []) s'
        | FracPart _ _ => None
        end
      else if (N.eqb c 32 || N.eqb c 9)%bool then emit st [] (tokenize NoNum s')
      else if N.eqb c 40 then emit st [T_LPAR] (tokenize NoNum s')
      else if N.eqb c 41 then emit st [T_RPAR] (tokenize NoNum s')
      else if N.eqb c 43 then emit st [T_OP Add] (tokenize NoNum s')
      else if N.eqb c 45 then emit st [T_OP Sub] (tokenize NoNum s')
      else if N.eqb c 37 then emit st [T_OP Mod] (tokenize NoNum s')
      else if N.eqb c 42 then
        match s' with
        | 42%N :: s'' => emit st [T_OP Pow] (tokenize NoNum s'')
        | _ => emit st [T_OP Mult] (tokenize NoNum s')
        end
      else if N.eqb c 47 then
        match s' with
        | 47%N :: s'' => emit st [T_OP FloorDiv] (tokenize NoNum s'')
        | _ => emit st [T_OP Div] (tokenize NoNum s')
        end
      else None
  end.

(** Python's grammar, from the loosest binding to the tightest:
    [sum: sum ('+'|'-') term], [term: term ('*'|'/'|'//'|'%') factor],
    [factor: ('+'|'-') factor | power], [power: atom ['**' factor]],
    [atom: NUMBER | '(' sum ')'].  Parentheses leave no node. *)
Fixpoint parse_sum (fuel : nat) (ts : list token) : option (expr * list token) :=
  match fuel with
  | O => None
  | S fuel' =>
      match parse_term fuel' ts with
      | Some (lhs, rest) => sum_loop fuel' lhs rest
      | None => None
      end
  end
with sum_loop (fuel : nat) (lhs : expr) (ts : list token)
  : option (expr * list token) :=
  match fuel with
  | O => None
  | S fuel' =>
      match ts with
      | T_OP Add :: ts' =>
          match parse_term fuel' ts' with
          | Some (rhs, rest) => sum_loop fuel' (BinOp lhs Add rhs) rest
          | None => None
          end
      | T_OP Sub :: ts' =>
          match parse_term fuel' ts' with
          | Some (rhs, rest) => sum_loop fuel' (BinOp lhs Sub rhs) rest
          | None => None
          end
      | _ => Some (lhs, ts)
      end
  end
with parse_term (fuel : nat) (ts : list token) : option (expr * list token) :=
  match fuel with
  | O => None
  | S fuel' =>
      match parse_factor fuel' ts with
      | Some (lhs, rest) => term_loop fuel' lhs rest
      | None => None
      end
  end
with term_loop (fuel : nat) (lhs : expr) (ts : list token)
  : option (expr * list token) :=
  match fuel with
  | O => None
  | S fuel' =>
      match ts with
      | T_OP ((Mult | Div | FloorDiv | Mod) as op) :: ts' =>
          match parse_factor fuel' ts' with
          | Some (rhs, rest) => term_loop fuel' (BinOp lhs op rhs) rest
          | None => None
          end
      | _ => Some (lhs, ts)
      end
  end
with parse_factor (fuel : nat) (ts : list token) : option (expr * list token) :=
  match fuel with
  | O => None
  | S fuel' =>
      match ts with
      | T_OP Add :: ts' =>
          match parse_factor fuel' ts' with
          | Some (e, rest) => Some (UnaryOp UAdd e, rest)
          | None => None
          end
      | T_OP Sub :: ts' =>
          match parse_factor fuel' ts' with
          | Some (e, rest) => Some (UnaryOp USub e, rest)
          | None => None
          end
      | _ => parse_power fuel' ts
      end
  end
with parse_power (fuel : nat) (ts : list token) : option (expr * list token) :=
  match fuel with
  | O => None
  | S fuel' =>
      match parse_atom fuel' ts with
      | Some (base, T_OP Pow :: ts') =>
          match parse_factor fuel' ts' with
          | Some (e, rest) => Some (BinOp base Pow e, rest)
          | None => None
          end
      | r => r
      end
  end
with parse_atom (fuel : nat) (ts : list token) : option (expr * list token) :=
  match fuel with
  | O => None
  | S fuel' =>
      match ts with
      | T_INT n :: rest => Some (Constant (CInt n), rest)
      | T_FLOAT f :: rest => Some (Constant (CFloat f), rest)
      | T_LPAR :: ts' =>
          match parse_sum fuel' ts' with
          | Some (e, T_RPAR :: rest) => Some (e, rest)
          | _ => None
          end
      | _ => None
      end
  end.

Definition max_tokens : nat := 200.

(** A text that starts with a blank is an indentation error. *)
Definition parse (s : pystr) : option expr :=
  match s with
  | [] => None
  | c :: _ =>
      if (N.eqb c 32 || N.eqb c 9)%bool then None
      else
        match tokenize NoNum s with
        | Some ts =>
            if (List.length ts <=? max_tokens)%nat then
              match parse_sum (6 * List.length ts + 6) ts with
              | Some (e, []) => Some e
              | _ => None
              end
            else None
        | None => None
        end
  end.

(** *** Evaluation *)

Definition int_binop (op : operator) (a b : Z) : option (result value) :=
  match op with
  | Add => Some (Returns (VInt (a + b)))
  | Sub => Some (Returns (VInt (a - b)))
  | Mult => Some (Returns (VInt (a * b)))
  | Div =>
      if (b =? 0)%Z then Some (Raises ZeroDivisionError)
      else
        match float_of_Z a, float_of_Z b with
        | Some x, Some y => Some (Returns (VFloat (x / y)%float))
        | _, _ => None
        end
  | FloorDiv =>
      if (b =? 0)%Z then Some (Raises ZeroDivisionError)
      else Some (Returns (VInt (a / b)))
  | Mod =>
      if (b =? 0)%Z then Some (Raises ZeroDivisionError)
      else Some (Returns (VInt (a mod b)))
  | Pow =>
      if ((0 <=? b) && ((Z.log2 (Z.abs a) + 1) * b <=? 2 ^ 20))%Z%bool
      then Some (Returns (VInt (a ^ b)))
      else None
  | _ => None
  end.

Definition float_binop (op : operator) (x y : float) : option (result value) :=
  match op with
  | Add => Some (Returns (VFloat (x + y)%float))
  | Sub => Some (Returns (VFloat (x - y)%float))
  | Mult => Some (Returns (VFloat (x * y)%float))
  | Div =>
      if PrimFloat.eqb y 0%float then Some (Raises ZeroDivisionError)
      else Some (Returns (VFloat (x / y)%float))
  | _ => None
  end.

Definition binop (op : operator) (a b : value) : option (result value) :=
  match a, b with
  | VInt x, VInt y => int_binop op x y
  | VFloat x, VFloat y => float_binop op x y
  | VInt x, VFloat y =>
      match float_of_Z x with
      | Some fx => float_binop op fx y
      | None => None
      end
  | VFloat x, VInt y =>
      match float_of_Z y with
      | Some fy => float_binop op x fy
      | None => None
      end
  | _, _ => None
  end.

Definition unop (op : unaryop) (a : value) : option (result value) :=
  match op, a with
  | UAdd, VInt x => Some (Returns (VInt x))
  | USub, VInt x => Some (Returns (VInt (- x)))
  | UAdd, VFloat x => Some (Returns (VFloat x))
  | USub, VFloat x => Some (Returns (VFloat (- x)%float))
  | _, _ => None
  end.

(** Operands are evaluated left to right; the first exception ends the
    evaluation. *)
Fixpoint eval (e : expr) : option (result value) :=
  match e with
  | Constant (CInt n) => Some (Returns (VInt n))
  | Constant (CFloat f) => Some (Returns (VFloat f))
  | Constant (COther _) => None
  | OtherExpr _ => None
  | UnaryOp op e' =>
      match eval e' with
      | Some (Returns a) => unop op a
      | r => r
      end
  | BinOp l op r =>
      match eval l with
      | Some (Returns a) =>
          match eval r with
          | Some (Returns b) => binop op a b
          | r' => r'
          end
      | r' => r'
      end
  end.

(** [str(n)] for an [int] within every version's limit on the number of
    digits of a conversion. *)
Definition to_str (v : value) : option pystr :=
  match v with
  | VInt n =>
      if (Z.abs n <? 10 ^ 4000)%Z
      then Some (str (DecimalString.NilZero.string_of_int (Z.to_int n)))
      else None
  | _ => None
  end.

End Fragment.

(** A runtime conforms to the fragment when it answers as the fragment does
    wherever the fragment makes a statement. *)
Definition conforms (R : PyRuntime) : Prop :=
  (forall s t, Fragment.parse s = Some t -> ast_parse s = Returns t) /\
  (forall t r, Fragment.eval t = Some r -> py_eval t = r) /\
  (forall v s, Fragment.to_str v = Some s -> py_str v = Returns s).

(** The fragment, completed into a runtime: outside the fragment it answers
    with an exception.  It serves to run examples inside the fragment. *)
Definition fragment_runtime : PyRuntime := {|
  ast_parse s :=
    match Fragment.parse s with
    | Some t => Returns t
    | None => Raises SyntaxError
    end;
  py_eval t :=
    match Fragment.eval t with
    | Some r => r
    | None => Raises (OtherException "outside the fragment")
    end;
  py_str v :=
    match Fragment.to_str v with
    | Some s => Returns s
    | None => Raises (OtherException "outside the fragment")
    end
|}.

(** ** Modes ([config.py]) *)

(** A Python [dict] with string keys, in insertion order.  Assigning to a
    key that is present replaces the value and keeps the key's position. *)
Definition dict (V : Type) := list (pystr * V).

Fixpoint dict_get {V} (d : dict V) (k : pystr) : option V :=
  match d with
  | [] => None
  | (k', v) :: d' => if eqb_str k' k then Some v else dict_get d' k
  end.

Fixpoint dict_set {V} (d : dict V) (k : pystr) (v : V) : dict V :=
  match d with
  | [] => [(k, v)]
  | (k', v') :: d' =>
      if eqb_str k' k then (k', v) :: d' else (k', v') :: dict_set d' k v
  end.

Definition keys {V} (d : dict V) : list pystr := List.map fst d.
Definition values {V} (d : dict V) : list V := List.map snd d.

Module Mode.

Record t := {
  name : pystr;
  endpoint : pystr;
  method : pystr;
  enable_input : bool;
  trigger : option (list pystr);
  prefix_trigger : option (list pystr);
  strip_prefix : bool;
  timeout : option Z;
  header : option (dict pystr);
  eval_mathops : bool;
  enable_trigger_req : bool
}.

End Mode.

(** What reading one file of the modes directory comes to in [load_modes]:
    [yaml.safe_load] raises [YAMLError], [Mode.from_dict] raises [KeyError],
    or a mode is built. *)
Inductive mode_file :=
| Unparsable
| MissingKey
| Defines (mode : Mode.t).

(** The loop of [load_modes]: a file that fails is skipped, a mode is stored
    under its name. *)
Fixpoint load_modes_into (modes : dict Mode.t) (files : list mode_file)
  : dict Mode.t :=
  match files with
  | [] => modes
  | Defines mode :: rest => load_modes_into (dict_set modes (Mode.name mode) mode) rest
  | _ :: rest => load_modes_into modes rest
  end.

Definition load_modes (files : list mode_file) : dict Mode.t :=
  load_modes_into [] files.

(** [mode.trigger and barcode in mode.trigger] *)
Definition trigger_hit (mode : Mode.t) (barcode : pystr) : bool :=
  match Mode.trigger mode with
  | Some ((_ :: _) as triggers) => str_in barcode triggers
  | _ => false
  end.

(** The loop [for pref in mode.prefix_trigger: if barcode.startswith(pref)],
    guarded by [if mode.prefix_trigger]: the first prefix that matches. *)
Definition first_prefix (mode : Mode.t) (barcode : pystr) : option pystr :=
  match Mode.prefix_trigger mode with
  | Some prefixes => find (startswith barcode) prefixes
  | None => None
  end.

Definition prefix_hit (mode : Mode.t) (barcode : pystr) : bool :=
  match first_prefix mode barcode with Some _ => true | None => false end.

Definition find_mode (modes : dict Mode.t) (barcode : pystr) : option Mode.t :=
  match find (fun mode => trigger_hit mode barcode) (values modes) with
  | Some mode => Some mode
  | None => find (fun mode => prefix_hit mode barcode) (values modes)
  end.

(** ** The transport ([client.py]) *)

Module Payload.

(** The payload dictionary: [raw_barcode] and [input] are keys that may be
    absent. *)
Record t := {
  barcode : pystr;
  mode : pystr;
  action : pystr;
  raw_barcode : option pystr;
  input : option pystr
}.

End Payload.

Module Call.

(** The arguments of one [api.send(...)]. *)
Record t := {
  method : pystr;
  endpoint : pystr;
  payload : Payload.t;
  timeout : option Z;
  headers : option (dict pystr)
}.

End Call.

(** How the payload travels. *)
Inductive body := Json (p : Payload.t) | Params (p : Payload.t).

Module Request.

(** The arguments [ApiClient.send] hands to [httpx.Client.request]. *)
Record t := {
  method : pystr;
  url : pystr;
  timeout : Z;
  headers : dict pystr;
  content : body
}.

End Request.

(** [hdrs.update(headers)] *)
Definition dict_update {V} (d extra : dict V) : dict V :=
  fold_left (fun acc kv => dict_set acc (fst kv) (snd kv)) extra d.

Section Client.

(** [str.upper], a function of the runtime's Unicode tables. *)
Variable upper : pystr -> pystr.

(** [self._base_timeout] *)
Variable base_timeout : Z.

(** [ApiClient.send], up to the request it makes. *)
Definition send (c : Call.t) : Request.t :=
  let method := upper (Call.method c) in
  let hdrs := [(str "Content-Type", str "application/json")] in
  let hdrs :=
    match Call.headers c with
    | Some ((_ :: _) as headers) => dict_update hdrs headers
    | _ => hdrs
    end in
  let timeout :=
    match Call.timeout c with
    | Some t => if (t =? 0)%Z then base_timeout else t
    | None => base_timeout
    end in
  {| Request.method := method;
     Request.url := Call.endpoint c;
     Request.timeout := timeout;
     Request.headers := hdrs;
     Request.content :=
       if str_in method [str "POST"; str "PUT"; str "PATCH"]
       then Json (Call.payload c) else Params (Call.payload c) |}.

End Client.

(** ** The session ([main]) *)

(** The records [log_event] writes. *)
Inductive event :=
| E_startup (mode_name : pystr) (mode_names : list pystr)
| E_stdin_eof
| E_mode_switch (new_mode trigger : pystr)
| E_sent (mode_name endpoint : pystr) (status : Z) (method : pystr)
    (payload : Payload.t)
| E_error (mode_name endpoint : pystr) (status : Z) (method : pystr)
    (response : pystr)
| E_exception (mode_name method error : pystr)
| E_mode_auto_revert (to_mode reason : pystr).

(** What [api.send] comes to: a response, or an exception with its text. *)
Inductive sent :=
| Response (is_success : bool) (status_code : Z) (text : pystr)
| SendFailed (error : pystr).

(** The variables [main] closes over, with the effects it has on the world:
    the [threading.Timer] objects that are started and have neither fired
    nor been cancelled, the events logged, the calls made to the transport.
    A timer is known by the number of timers made before it. *)
Record Session := {
  current_mode : Mode.t;
  idle_timer : option nat;
  live_timers : list nat;
  timers_made : nat;
  events : list event;
  calls : list Call.t
}.

Definition set_mode (m : Mode.t) (s : Session) : Session :=
  {| current_mode := m; idle_timer := idle_timer s;
     live_timers := live_timers s; timers_made := timers_made s;
     events := events s; calls := calls s |}.

Definition add_event (e : event) (s : Session) : Session :=
  {| current_mode := current_mode s; idle_timer := idle_timer s;
     live_timers := live_timers s; timers_made := timers_made s;
     events := events s ++ [e]; calls := calls s |}.

Definition add_call (c : Call.t) (s : Session) : Session :=
  {| current_mode := current_mode s; idle_timer := idle_timer s;
     live_timers := live_timers s; timers_made := timers_made s;
     events := events s; calls := calls s ++ [c] |}.

(** The loop body ends with [continue] or [break]. *)
Inductive control := Continue | Break.

(** A small state monad over the session. *)
Definition M (A : Type) : Type := Session -> A * Session.
Definition ret {A} (a : A) : M A := fun s => (a, s).
Definition bind {A B} (m : M A) (k : A -> M B) : M B :=
  fun s => let (a, s') := m s in k a s'.
Definition get_mode : M Mode.t := fun s => (current_mode s, s).
Definition put_mode (m : Mode.t) : M unit := fun s => (tt, set_mode m s).
Definition log_event (e : event) : M unit := fun s => (tt, add_event e s).

Declare Scope session_scope.
Delimit Scope session_scope with session.
Notation "x <- m ;; k" := (bind m (fun x => k))
  (at level 61, m at next level, right associativity) : session_scope.
Notation "m ;; k" := (bind m (fun _ => k))
  (at level 61, right associativity) : session_scope.
Local Open Scope session_scope.

Section Main.

Context {R : PyRuntime}.

(** [modes], [default_mode] and [args.idle_timeout]. *)
Variable modes : dict Mode.t.
Variable default_mode : Mode.t.
Variable idle_timeout : option Z.

Definition cancel_timer : M unit := fun s =>
  match idle_timer s with
  | Some t =>
      (tt, {| current_mode := current_mode s; idle_timer := None;
              live_timers := remove Nat.eq_dec t (live_timers s);
              timers_made := timers_made s;
              events := events s; calls := calls s |})
  | None => (tt, s)
  end.

Definition is_default (m : Mode.t) : bool :=
  eqb_str (Mode.name m) (Mode.name default_mode).

Definition _do_timeout (reason : pystr) : M unit :=
  current <- get_mode ;;
  if negb (is_default current) then
    put_mode default_mode ;;
    log_event (E_mode_auto_revert (Mode.name default_mode) reason)
  else ret tt.

(** [threading.Timer(...)] followed by [start()]. *)
Definition start_timer : M unit := fun s =>
  (tt, {| current_mode := current_mode s;
          idle_timer := Some (timers_made s);
          live_timers := timers_made s :: live_timers s;
          timers_made := S (timers_made s);
          events := events s; calls := calls s |}).

(** [not args.idle_timeout] is true of [None] and of [0]. *)
Definition timeout_disabled : bool :=
  match idle_timeout with
  | Some t => (t =? 0)%Z
  | None => true
  end.

Definition schedule_timeout : M unit :=
  if timeout_disabled then ret tt
  else
    current <- get_mode ;;
    if is_default current then cancel_timer
    else cancel_timer ;; start_timer.

(** A live timer fires: its thread runs [_do_timeout("inactivity")]. *)
Definition timer_fires (t : nat) : M unit := fun s =>
  _do_timeout (str "inactivity")
    {| current_mode := current_mode s; idle_timer := idle_timer s;
       live_timers := remove Nat.eq_dec t (live_timers s);
       timers_made := timers_made s;
       events := events s; calls := calls s |}.

(** [api.send(...)] with what follows it inside the [try]: [answer] is what
    the transport comes back with. *)
Definition dispatch (effective : Mode.t) (payload : Payload.t) (answer : sent)
  : M unit :=
  (fun s =>
     (tt, add_call {| Call.method := Mode.method effective;
                      Call.endpoint := Mode.endpoint effective;
                      Call.payload := payload;
                      Call.timeout := Mode.timeout effective;
                      Call.headers := Mode.header effective |} s)) ;;
  match answer with
  | Response true status _ =>
      log_event (E_sent (Mode.name effective) (Mode.endpoint effective) status
                   (Mode.method effective) payload)
  | Response false status text =>
      log_event (E_error (Mode.name effective) (Mode.endpoint effective) status
                   (Mode.method effective) text)
  | SendFailed error =>
      log_event (E_exception (Mode.name effective) (Mode.method effective) error)
  end.

(** The text that goes under ["input"]: [str(evaluated)], where [evaluated]
    is the value of the expression, or the typed text when evaluation is off
    or raises.  [str] of a value may raise. *)
Definition input_text (effective : Mode.t) (extra : pystr) : result pystr :=
  if Mode.eval_mathops effective then
    match _eval_mathops extra with
    | Returns v => py_str v
    | Raises _ => Returns extra
    end
  else Returns extra.

(** The part of the loop body after the mode is settled: the payload, the
    prompt, the request, and the timer unless the match was ephemeral.  An
    exception of [str] leaves through the outer [except Exception], past the
    request and the timer. *)
Definition scan (effective : Mode.t) (ephemeral : bool)
  (raw_barcode barcode extra : pystr) (answer : sent) : M control :=
  let payload :=
    {| Payload.barcode := barcode;
       Payload.mode := Mode.name effective;
       Payload.action := str "scan";
       Payload.raw_barcode :=
         if eqb_str raw_barcode barcode then None else Some raw_barcode;
       Payload.input := None |} in
  let enriched :=
    if (Mode.enable_input effective && negb (is_empty extra))%bool then
      match input_text effective extra with
      | Returns text =>
          Returns {| Payload.barcode := Payload.barcode payload;
                     Payload.mode := Payload.mode payload;
                     Payload.action := str "scan+input";
                     Payload.raw_barcode := Payload.raw_barcode payload;
                     Payload.input := Some (sanitize_input text) |}
      | Raises e => Raises e
      end
    else Returns payload in
  match enriched with
  | Raises _ => ret Continue
  | Returns payload =>
      dispatch effective payload answer ;;
      (if ephemeral then ret tt else schedule_timeout) ;;
      ret Continue
  end.

(** One turn of [while True]: [line] is what [sys.stdin.readline()] gave
    (the empty string at the end of the input), [extra] what the user types
    if prompted, [answer] what the transport comes back with if called. *)
Definition process_line (line extra : pystr) (answer : sent) : M control :=
  if is_empty line then log_event E_stdin_eof ;; ret Break
  else
    let barcode := sanitize_input (strip line) in
    if is_empty barcode then ret Continue
    else
      let raw_barcode := barcode in
      current <- get_mode ;;
      match find_mode modes barcode with
      | Some triggered_mode =>
          if trigger_hit triggered_mode barcode then
            put_mode triggered_mode ;;
            log_event (E_mode_switch (Mode.name triggered_mode) raw_barcode) ;;
            schedule_timeout ;;
            if negb (Mode.enable_trigger_req triggered_mode) then ret Continue
            else
              dispatch triggered_mode
                {| Payload.barcode := raw_barcode;
                   Payload.mode := Mode.name triggered_mode;
                   Payload.action := str "mode";
                   Payload.raw_barcode := None;
                   Payload.input := None |} answer ;;
              ret Continue
          else
            match first_prefix triggered_mode barcode with
            | Some pref =>
                let barcode' :=
                  if Mode.strip_prefix triggered_mode
                  then skipn (List.length pref) barcode else barcode in
                scan triggered_mode true raw_barcode barcode' extra answer
            | None => scan current false raw_barcode barcode extra answer
            end
      | None => scan current false raw_barcode barcode extra answer
      end.



(** The session at the start of the loop. *)
Definition startup : Session :=
  {| current_mode := default_mode; idle_timer := None; live_timers := [];
     timers_made := O;
     events := [E_startup (Mode.name default_mode) (keys modes)];
     calls := [] |}.

End Main.



(** ** Notions the properties are stated with *)

(** [a] is [b] with some characters deleted. *)
Inductive Subseq : pystr -> pystr -> Prop :=
| Subseq_nil : Subseq [] []
| Subseq_drop c a b : Subseq a b -> Subseq a (c :: b)
| Subseq_keep c a b : Subseq a b -> Subseq (c :: a) (c :: b).

(** One node passes both tests of the loop in [_eval_mathops]. *)
Definition node_ok (n : node) : bool :=
  (allowed_node n &&
   match n with
   | N_expr (Constant (CInt v)) => negb (int_too_large v)
   | N_expr (Constant (CFloat f)) => negb (float_too_large f)
   | _ => true
   end)%bool.

(** A tree of arithmetic only: the seven binary operators, unary plus and
    minus, and constants, the numeric ones within the bound. *)
Fixpoint tree_ok (e : expr) : bool :=
  match e with
  | BinOp l op r => (node_ok (N_operator op) && tree_ok l && tree_ok r)%bool
  | UnaryOp op e' => (node_ok (N_unaryop op) && tree_ok e')%bool
  | Constant c => node_ok (N_expr (Constant c))
  | OtherExpr _ => false
  end.

(** What the end of [_eval_mathops] makes of the interpreter's value. *)
Definition coerce (r : value) : value :=
  match r with
  | VFloat f =>
      match float_as_integer f with
      | Some z => VInt z
      | None => VFloat f
      end
  | _ => r
  end.

(** [P] holds of every node of a tree. *)
Fixpoint expr_all (P : node -> bool) (e : expr) : bool :=
  (P (N_expr e) &&
   match e with
   | BinOp l op r => expr_all P l && P (N_operator op) && expr_all P r
   | UnaryOp op e' => P (N_unaryop op) && expr_all P e'
   | _ => true
   end)%bool.

Definition node_all (P : node -> bool) (n : node) : bool :=
  match n with
  | N_Expression body => (P n && expr_all P body)%bool
  | N_expr e => expr_all P e
  | _ => P n
  end.

(** The token is one of the mode's triggers; [pref] is one of the mode's
    prefixes and the token starts with it. *)
Definition has_trigger (mode : Mode.t) (barcode : pystr) : Prop :=
  exists triggers, Mode.trigger mode = Some triggers /\ In barcode triggers.

Definition has_prefix (mode : Mode.t) (barcode : pystr) : Prop :=
  exists prefixes pref rest,
    Mode.prefix_trigger mode = Some prefixes /\ In pref prefixes /\
    barcode = pref ++ rest.

(** The modes the files define, in the order of the files. *)
Fixpoint defined (files : list mode_file) : list Mode.t :=
  match files with
  | [] => []
  | Defines mode :: rest => mode :: defined rest
  | _ :: rest => defined rest
  end.

(** The sessions [main] can be in at the top of its loop. *)
Inductive reachable `{PyRuntime} (modes : dict Mode.t) (default_mode : Mode.t)
  (idle_timeout : option Z) : Session -> Prop :=
| reach_startup :
    reachable modes default_mode idle_timeout (startup modes default_mode)
| reach_line s line extra answer s' :
    reachable modes default_mode idle_timeout s ->
    process_line modes default_mode idle_timeout line extra answer s
      = (Continue, s') ->
    reachable modes default_mode idle_timeout s'
| reach_fire s t :
    reachable modes default_mode idle_timeout s ->
    In t (live_timers s) ->
    reachable modes default_mode idle_timeout
      (snd (timer_fires default_mode t s)).

(** The timer discipline: at most one timer is pending and [idle_timer]
    refers to it; none is pending when the idle timeout is off; one is
    pending only while the current mode is not the default mode. *)
Definition timers_ok (default_mode : Mode.t) (idle_timeout : option Z)
  (s : Session) : Prop :=
  (live_timers s = [] \/
   exists t, live_timers s = [t] /\ idle_timer s = Some t) /\
  (timeout_disabled idle_timeout = true -> live_timers s = []) /\
  (live_timers s <> [] -> is_default default_mode (current_mode s) = false).

(** No escape character in what a call carries of the scanned and typed
    text. *)
Definition call_clean (c : Call.t) : Prop :=
  let p := Call.payload c in
  ~ In ESC (Payload.barcode p) /\
  (forall raw, Payload.raw_barcode p = Some raw -> ~ In ESC raw) /\
  (forall text, Payload.input p = Some text -> ~ In ESC text).

(** What the part after the mode is settled sends: nothing when [str]
    raised, else one request to the effective mode. *)
Definition scan_sent (effective : Mode.t) (raw_barcode barcode : pystr)
  (s s' : Session) : Prop :=
  s' = s \/
  exists payload,
    calls s' = calls s ++
      [{| Call.method := Mode.method effective;
          Call.endpoint := Mode.endpoint effective;
          Call.payload := payload;
          Call.timeout := Mode.timeout effective;
          Call.headers := Mode.header effective |}] /\
    Payload.barcode payload = barcode /\
    Payload.mode payload = Mode.name effective /\
    Payload.raw_barcode payload
      = (if eqb_str raw_barcode barcode then None else Some raw_barcode) /\
    (Payload.input payload = None /\ Payload.action payload = str "scan" \/
     exists text, Payload.input payload = Some (sanitize_input text) /\
                  Payload.action payload = str "scan+input").

(** No revert among some records of the log. *)
Definition no_revert (more : list event) : Prop :=
  forall to_mode reason, ~ In (E_mode_auto_revert to_mode reason) more.

(** The fields of the session that decide what it does next. *)
Definition mode_and_timer (s : Session)
  : Mode.t * option nat * list nat * nat :=
  (current_mode s, idle_timer s, live_timers s, timers_made s).

(** ** A configuration to run examples on

    Two modes: the default mode, and a mode with one trigger and one prefix
    that is cut off. *)

Definition example_default : Mode.t :=
  {| Mode.name := str "DEFAULT"; Mode.endpoint := str "http://host/default";
     Mode.method := str "POST"; Mode.enable_input := false;
     Mode.trigger := None; Mode.prefix_trigger := None;
     Mode.strip_prefix := false; Mode.timeout := None; Mode.header := None;
     Mode.eval_mathops := true; Mode.enable_trigger_req := false |}.

Definition example_scan : Mode.t :=
  {| Mode.name := str "SCAN"; Mode.endpoint := str "http://host/scan";
     Mode.method := str "POST"; Mode.enable_input := true;
     Mode.trigger := Some [str "SW"]; Mode.prefix_trigger := Some [str "X-"];
     Mode.strip_prefix := true; Mode.timeout := Some 3%Z;
     Mode.header := Some [(str "X-Token", str "t")];
     Mode.eval_mathops := true; Mode.enable_trigger_req := true |}.

Definition example_modes : dict Mode.t :=
  [(str "DEFAULT", example_default); (str "SCAN", example_scan)].

(** The session after the first line, ["SW"], with an idle timeout of five
    seconds. *)
Definition example_switched : Session :=
  snd (@process_line fragment_runtime example_modes example_default (Some 5%Z)
         (str "SW" ++ [10%N]) [] (Response true 200 [])
         (startup example_modes example_default)).

(** ** Properties of the sanitizer *)

Section SanitizerFacts.

Lemma replace_empty_absent (c : char) (s : pystr) :
  ~ In c (replace_empty c s).
Proof.
  unfold replace_empty. intros H. apply filter_In in H as [_ H].
  now rewrite N.eqb_refl in H.
Qed.

Lemma replace_empty_id (c : char) (s : pystr) :
  ~ In c s -> replace_empty c s = s.
Proof.
  unfold replace_empty. induction s as [|x s IH]; intros H; simpl; [reflexivity|].
  destruct (N.eqb_spec x c) as [->|_]; simpl.
  - exfalso. apply H. now left.
  - f_equal. apply IH. intros Hin. apply H. now right.
Qed.

(** The CSI pattern starts with a literal escape character. *)
Lemma csi_match_needs_esc (s : pystr) :
  ~ In ESC s -> Re.match_here _ANSI_CSI_RE s = None.
Proof.
  destruct s as [|c s]; intros H; [reflexivity|].
  cbn [Re.match_here _ANSI_CSI_RE].
  destruct (N.eqb_spec ESC c) as [<-|_]; [|reflexivity].
  exfalso. apply H. now left.
Qed.

Lemma sub_empty_csi_id (s : pystr) :
  ~ In ESC s -> Re.sub_empty _ANSI_CSI_RE O s = s.
Proof.
  induction s as [|c s IH]; intros H; [reflexivity|].
  cbn [Re.sub_empty]. rewrite (csi_match_needs_esc (c :: s) H).
  f_equal. apply IH. intros Hin. apply H. now right.
Qed.

Lemma sanitize_input_no_esc (x : pystr) : ~ In ESC (sanitize_input x).
Proof.
  destruct x as [|c x]; [intros []|]. apply replace_empty_absent.
Qed.

Lemma sanitize_input_fixed (s : pystr) :
  ~ In ESC s -> sanitize_input s = s.
Proof.
  intros H. destruct s as [|c s]; [reflexivity|].
  unfold sanitize_input. rewrite (sub_empty_csi_id (c :: s) H).
  now apply replace_empty_id.
Qed.

End SanitizerFacts.

(** C9. [sanitize_input] is a total function on strings (it has no error
    outcome: neither the substitution nor the replacement can raise) and it
    is idempotent: sanitizing an already sanitized string changes nothing. *)
Theorem sanitize_input_idempotent (x : pystr) :
  sanitize_input (sanitize_input x) = sanitize_input x.
Proof.
  apply sanitize_input_fixed, sanitize_input_no_esc.
Qed.

Example sanitize_csi :
  sanitize_input (27 :: str "[0;31mSW" ++ 27 :: str "[0m" ++ [27])%N = str "SW".
Proof. reflexivity. Qed.


(** ** Strings *)

Section StringFacts.

Lemma eqb_str_eq (a b : pystr) : eqb_str a b = true <-> a = b.
Proof.
  revert b. induction a as [|x a IH]; intros [|y b]; simpl;
    try (split; [discriminate|discriminate]); [tauto|].
  rewrite andb_true_iff, N.eqb_eq, IH. split.
  - now intros [-> ->].
  - intros E. now inversion E.
Qed.

Lemma eqb_str_refl (a : pystr) : eqb_str a a = true.
Proof. now apply eqb_str_eq. Qed.

Lemma eqb_str_neq (a b : pystr) : eqb_str a b = false <-> a <> b.
Proof.
  rewrite <- eqb_str_eq. destruct (eqb_str a b); split; congruence.
Qed.

Lemma str_in_In (x : pystr) (xs : list pystr) : str_in x xs = true <-> In x xs.
Proof.
  unfold str_in. rewrite existsb_exists. split.
  - intros (y & Hy & E). apply eqb_str_eq in E. now subst.
  - intros H. exists x. split; [assumption|apply eqb_str_refl].
Qed.

Lemma startswith_app (s pref : pystr) :
  startswith s pref = true <-> exists rest, s = pref ++ rest.
Proof.
  revert s. induction pref as [|p pref IH]; intros s; simpl.
  - split; [intros _; now exists s|now destruct s].
  - destruct s as [|c s].
    + split; [discriminate|intros (rest & E); discriminate].
    + simpl. rewrite andb_true_iff, N.eqb_eq, IH. split.
      * intros (-> & rest & ->). now exists rest.
      * intros (rest & E). inversion E. split; [reflexivity|now exists rest].
Qed.

Lemma lstrip_blank (s : pystr) : forallb is_space s = true -> lstrip s = [].
Proof.
  induction s as [|c s IH]; simpl; [reflexivity|].
  intros H. apply andb_true_iff in H as [Hc Hs]. now rewrite Hc, IH.
Qed.

Lemma lstrip_nil_blank (s : pystr) : lstrip s = [] -> forallb is_space s = true.
Proof.
  induction s as [|c s IH]; simpl; [reflexivity|].
  destruct (is_space c); [exact IH|discriminate].
Qed.

Lemma lstrip_app_blank (w s : pystr) :
  forallb is_space w = true -> lstrip (w ++ s) = lstrip s.
Proof.
  induction w as [|c w IH]; simpl; [reflexivity|].
  intros H. apply andb_true_iff in H as [Hc Hw]. now rewrite Hc, IH.
Qed.

Lemma lstrip_app (s w : pystr) :
  lstrip s <> [] -> lstrip (s ++ w) = lstrip s ++ w.
Proof.
  induction s as [|c s IH]; simpl; [congruence|].
  destruct (is_space c); [exact IH|reflexivity].
Qed.

Lemma lstrip_keeps (c : char) (s : pystr) :
  In c s -> is_space c = false -> In c (lstrip s).
Proof.
  intros Hin Hc. induction s as [|x s IH]; [destruct Hin|].
  simpl. destruct (is_space x) eqn:Hx; [|assumption].
  destruct Hin as [->|Hin]; [congruence|now apply IH].
Qed.

Lemma strip_blank (s : pystr) : forallb is_space s = true -> strip s = [].
Proof.
  intros H. unfold strip. now rewrite (lstrip_blank s H).
Qed.

Lemma strip_keeps (c : char) (s : pystr) :
  In c s -> is_space c = false -> In c (strip s).
Proof.
  intros Hin Hc. unfold strip, rstrip. rewrite <- in_rev.
  apply lstrip_keeps; [|assumption]. rewrite <- in_rev.
  now apply lstrip_keeps.
Qed.

Lemma forallb_rev {A} (P : A -> bool) (l : list A) :
  forallb P (rev l) = forallb P l.
Proof.
  induction l as [|x l IH]; [reflexivity|].
  simpl. rewrite forallb_app, IH. simpl. rewrite andb_true_r. apply andb_comm.
Qed.

Lemma rstrip_app_blank (s w : pystr) :
  forallb is_space w = true -> rstrip (s ++ w) = rstrip s.
Proof.
  intros H. unfold rstrip. rewrite rev_app_distr, lstrip_app_blank;
    [reflexivity|now rewrite forallb_rev].
Qed.

(** Blanks around a text do not count. *)
Lemma strip_pad (w1 s w2 : pystr) :
  forallb is_space w1 = true -> forallb is_space w2 = true ->
  strip (w1 ++ s ++ w2) = strip s.
Proof.
  intros H1 H2. unfold strip. rewrite (lstrip_app_blank w1 _ H1).
  destruct (lstrip s) eqn:E.
  - apply lstrip_nil_blank in E. rewrite lstrip_blank; [reflexivity|].
    now rewrite forallb_app, E.
  - rewrite lstrip_app by congruence. rewrite E. now apply rstrip_app_blank.
Qed.

End StringFacts.

(** ** More on the sanitizer *)

Section SanitizerDeletes.

Lemma Subseq_refl (a : pystr) : Subseq a a.
Proof. induction a; [apply Subseq_nil|now apply Subseq_keep]. Qed.

Lemma Subseq_trans (a b c : pystr) : Subseq a b -> Subseq b c -> Subseq a c.
Proof.
  intros Hab Hbc. revert a Hab.
  induction Hbc as [|x b c Hbc IH|x b c Hbc IH]; intros a Hab.
  - assumption.
  - constructor. now apply IH.
  - inversion Hab; subst.
    + apply Subseq_drop. now apply IH.
    + apply Subseq_keep. now apply IH.
Qed.

Lemma Subseq_filter (P : char -> bool) (s : pystr) : Subseq (filter P s) s.
Proof.
  induction s as [|c s IH]; simpl; [constructor|].
  destruct (P c); [apply Subseq_keep|apply Subseq_drop]; assumption.
Qed.

Lemma Subseq_sub_empty (ps : list Re.piece) (s : pystr) :
  forall skip, Subseq (Re.sub_empty ps skip s) s.
Proof.
  induction s as [|c s IH]; intros skip; simpl; [constructor|].
  destruct skip as [|k]; [|apply Subseq_drop, IH].
  destruct (Re.match_here ps (c :: s)) as [[|n]|];
    [apply Subseq_keep|apply Subseq_drop|apply Subseq_keep]; apply IH.
Qed.

Lemma Subseq_In (a b : pystr) (c : char) : Subseq a b -> In c a -> In c b.
Proof.
  induction 1 as [|x a b H IH|x a b H IH]; simpl; intros Hin; [assumption| |].
  - right. now apply IH.
  - destruct Hin as [->|Hin]; [now left|right; now apply IH].
Qed.

Lemma Subseq_length (a b : pystr) :
  Subseq a b -> (List.length a <= List.length b)%nat.
Proof. induction 1; simpl; lia. Qed.

End SanitizerDeletes.

(** X1. [sanitize_input] only deletes: its result is the input with some
    characters taken out, in the same order, and none of the characters left
    is the escape character. *)
Theorem sanitize_input_deletes (x : pystr) :
  Subseq (sanitize_input x) x /\ ~ In ESC (sanitize_input x).
Proof.
  split; [|apply sanitize_input_no_esc].
  destruct x as [|c x]; [constructor|].
  unfold sanitize_input, replace_empty.
  eapply Subseq_trans; [apply Subseq_filter|apply Subseq_sub_empty].
Qed.

(** X2. The strings [sanitize_input] leaves as they are are exactly the
    strings without an escape character. *)
Theorem sanitize_input_fixed_points (x : pystr) :
  sanitize_input x = x <-> ~ In ESC x.
Proof.
  split.
  - intros E. rewrite <- E. apply sanitize_input_no_esc.
  - apply sanitize_input_fixed.
Qed.

Section CsiSequences.

Lemma star_app (cls : char -> bool) (ps : list Re.piece) (l s : pystr) (n : nat) :
  forallb cls l = true ->
  Re.match_here (Re.Star cls :: ps) s = Some n ->
  Re.match_here (Re.Star cls :: ps) (l ++ s) = Some (List.length l + n)%nat.
Proof.
  intros Hl Hs. induction l as [|c l IH]; [exact Hs|].
  simpl in Hl. apply andb_true_iff in Hl as [Hc Hl].
  specialize (IH Hl). cbn [Re.match_here] in IH |- *.
  cbn [app]. rewrite Hc. cbn [Re.match_here] in IH. rewrite IH. reflexivity.
Qed.

Lemma star_stop (cls : char -> bool) (ps : list Re.piece) (c : char) (s : pystr) :
  cls c = false ->
  Re.match_here (Re.Star cls :: ps) (c :: s) = Re.match_here ps (c :: s).
Proof. intros H. cbn [Re.match_here]. now rewrite H. Qed.

Lemma in_range_disjoint (lo hi lo' hi' : N) (c : char) :
  (hi < lo' \/ hi' < lo)%N -> in_range lo hi c = true -> in_range lo' hi' c = false.
Proof.
  unfold in_range. intros D H. apply andb_true_iff in H as [H1 H2].
  apply N.leb_le in H1, H2. apply andb_false_iff.
  destruct D as [D|D]; [left|right]; apply N.leb_gt; lia.
Qed.

(** The match of a whole CSI sequence: parameter bytes, intermediate bytes,
    one final byte. *)
Lemma csi_match (params inter : pystr) (final : char) (rest : pystr) :
  forallb (in_range 48 63) params = true ->
  forallb (in_range 32 47) inter = true ->
  in_range 64 126 final = true ->
  Re.match_here _ANSI_CSI_RE (ESC :: 91%N :: params ++ inter ++ final :: rest)
  = Some (S (S (List.length params + (List.length inter + 1))))%nat.
Proof.
  intros Hp Hi Hf.
  assert (Hlast : Re.match_here [Re.Star (in_range 32 47); Re.One (in_range 64 126)]
                    (final :: rest) = Some 1%nat).
  { rewrite star_stop by (eapply in_range_disjoint; [|exact Hf]; right; lia).
    cbn [Re.match_here]. now rewrite Hf. }
  assert (Hinter : Re.match_here [Re.Star (in_range 32 47); Re.One (in_range 64 126)]
                     (inter ++ final :: rest) = Some (List.length inter + 1)%nat).
  { now apply star_app. }
  assert (Hmid : Re.match_here [Re.Star (in_range 48 63); Re.Star (in_range 32 47);
                                Re.One (in_range 64 126)]
                   (inter ++ final :: rest) = Some (List.length inter + 1)%nat).
  { destruct inter as [|c inter].
    - cbn [app] in *. rewrite star_stop; [exact Hinter|].
      eapply in_range_disjoint; [|exact Hf]; right; lia.
    - cbn [app] in *. rewrite star_stop; [exact Hinter|].
      simpl in Hi. apply andb_true_iff in Hi as [Hc _].
      eapply in_range_disjoint; [|exact Hc]; left; lia. }
  unfold _ANSI_CSI_RE. cbn [Re.match_here].
  rewrite !N.eqb_refl. cbn [option_map].
  change (fix star (s : pystr) : option nat := _) with
    (Re.match_here [Re.Star (in_range 48 63); Re.Star (in_range 32 47);
                    Re.One (in_range 64 126)]).
  now rewrite (star_app _ _ params _ _ Hp Hmid).
Qed.

Lemma sub_empty_skip_all (ps : list Re.piece) (l rest : pystr) :
  Re.sub_empty ps (List.length l) (l ++ rest) = Re.sub_empty ps O rest.
Proof.
  induction l as [|c l IH]; simpl; [reflexivity|exact IH].
Qed.

Lemma sub_empty_clean_prefix (pre s : pystr) :
  ~ In ESC pre ->
  Re.sub_empty _ANSI_CSI_RE O (pre ++ s) = pre ++ Re.sub_empty _ANSI_CSI_RE O s.
Proof.
  induction pre as [|c pre IH]; intros H; [reflexivity|].
  cbn [app Re.sub_empty].
  assert (Hc : Re.match_here _ANSI_CSI_RE (c :: pre ++ s) = None).
  { cbn [Re.match_here _ANSI_CSI_RE].
    destruct (N.eqb_spec ESC c) as [<-|_]; [|reflexivity].
    exfalso. apply H. now left. }
  rewrite Hc. f_equal. apply IH. intros Hin. apply H. now right.
Qed.

End CsiSequences.

(** X3. A complete CSI sequence (the escape character, [[], parameter bytes
    [0-?], intermediate bytes [ -/], one final byte [@-~]) that follows text
    without escape characters is removed whole: the text before it stays and
    what follows it is sanitized in turn. *)
Theorem sanitize_input_removes_csi
  (pre params inter : pystr) (final : char) (rest : pystr) :
  ~ In ESC pre ->
  forallb (in_range 48 63) params = true ->
  forallb (in_range 32 47) inter = true ->
  in_range 64 126 final = true ->
  sanitize_input (pre ++ ESC :: 91%N :: params ++ inter ++ final :: rest)
  = pre ++ sanitize_input rest.
Proof.
  intros Hpre Hp Hi Hf.
  assert (E : sanitize_input (pre ++ ESC :: 91%N :: params ++ inter ++ final :: rest)
              = replace_empty ESC
                  (Re.sub_empty _ANSI_CSI_RE O
                     (pre ++ ESC :: 91%N :: params ++ inter ++ final :: rest))).
  { now destruct pre. }
  rewrite E, sub_empty_clean_prefix by assumption.
  cbn [Re.sub_empty]. rewrite (csi_match params inter final rest Hp Hi Hf).
  replace (params ++ inter ++ final :: rest)
    with ((params ++ inter ++ [final]) ++ rest)
    by (now rewrite <- !app_assoc).
  replace (List.length params + (List.length inter + 1))%nat
    with (List.length (params ++ inter ++ [final]))
    by (now rewrite !length_app).
  rewrite sub_empty_skip_all.
  assert (Happ : forall a b, replace_empty ESC (a ++ b)
                             = replace_empty ESC a ++ replace_empty ESC b)
    by (intros; apply filter_app).
  rewrite Happ, (replace_empty_id ESC pre Hpre).
  f_equal. now destruct rest.
Qed.

Lemma sanitize_input_removes_csi_witness :
  sanitize_input (str "AB" ++ ESC :: 91%N :: str "0;31" ++ str " " ++ 109%N :: str "SW")
  = str "AB" ++ sanitize_input (str "SW").
Proof.
  apply (sanitize_input_removes_csi (str "AB") (str "0;31") (str " ") 109%N (str "SW"));
    [ intros [H|[H|[]]]; discriminate H | reflexivity | reflexivity | reflexivity ].
Defined.

(** ** The evaluator *)

Section EvaluatorFacts.

Context {R : PyRuntime}.

Lemma disallowed_not_space (c : char) :
  In c disallowed_chars -> is_space c = false.
Proof.
  intros H.
  assert (A : forallb (fun c => negb (is_space c)) disallowed_chars = true)
    by (vm_compute; reflexivity).
  rewrite forallb_forall in A. apply A in H. now apply negb_true_iff.
Qed.

Lemma guard_hit (s : pystr) (c : char) :
  In c s -> In c disallowed_chars ->
  existsb (fun c => char_in c s) disallowed_chars = true.
Proof.
  intros Hs Hd. apply existsb_exists. exists c. split; [assumption|].
  unfold char_in. apply existsb_exists. exists c. split; [assumption|].
  apply N.eqb_refl.
Qed.

Lemma guard_miss (s : pystr) :
  existsb (fun c => char_in c s) disallowed_chars = false ->
  forall c, In c s -> ~ In c disallowed_chars.
Proof.
  intros H c Hs Hd. now rewrite (guard_hit s c Hs Hd) in H.
Qed.

Lemma node_count_children (n : node) :
  node_count n = S (list_sum (List.map node_count (iter_child_nodes n))).
Proof.
  destruct n as [body|[l op r|op e|c|k]|op|op]; simpl; lia.
Qed.

Lemma node_all_children (P : node -> bool) (n : node) :
  node_all P n = (P n && forallb (node_all P) (iter_child_nodes n))%bool.
Proof.
  destruct n as [body|[l op r|op e|c|k]|op|op]; simpl;
    rewrite ?andb_true_r; try reflexivity.
  - now rewrite !andb_assoc.
Qed.

(** The queue is emptied: with fuel for every node waiting or below one
    waiting, the walk tests every node of every waiting tree. *)
Lemma walk_queue_all (P : node -> bool) (fuel : nat) :
  forall todo,
    (list_sum (List.map node_count todo) <= fuel)%nat ->
    forallb P (walk_queue fuel todo) = forallb (node_all P) todo.
Proof.
  induction fuel as [|fuel IH]; intros todo Hfuel.
  - destruct todo as [|n todo]; [reflexivity|].
    simpl in Hfuel. rewrite (node_count_children n) in Hfuel. lia.
  - destruct todo as [|n todo]; [reflexivity|].
    cbn [walk_queue forallb]. rewrite IH.
    + rewrite forallb_app, (node_all_children P n).
      destruct (P n); [|reflexivity]. cbn [andb]. apply andb_comm.
    + simpl in Hfuel. rewrite (node_count_children n) in Hfuel.
      rewrite map_app, list_sum_app. lia.
Qed.

Lemma walk_all (P : node -> bool) (tree : node) :
  forallb P (walk tree) = node_all P tree.
Proof.
  unfold walk. rewrite walk_queue_all by (simpl; lia).
  simpl. apply andb_true_r.
Qed.

Lemma check_nodes_none (nodes : list node) :
  check_nodes nodes = None <-> forallb node_ok nodes = true.
Proof.
  induction nodes as [|n nodes IH]; [simpl; tauto|].
  cbn [check_nodes forallb]. unfold node_ok at 1.
  destruct (allowed_node n); cbn [negb andb]; [|split; discriminate].
  destruct n as [body|[l op r|op e|[v|f|o]|k]|op|op]; cbn [andb]; try exact IH.
  - destruct (int_too_large v); cbn [negb andb]; [split; discriminate|exact IH].
  - destruct (float_too_large f); cbn [negb andb]; [split; discriminate|exact IH].
Qed.

Lemma check_nodes_value_error (nodes : list node) (e : exn) :
  check_nodes nodes = Some e -> exists msg, e = ValueError msg.
Proof.
  induction nodes as [|n nodes IH]; [discriminate|].
  cbn [check_nodes]. destruct (allowed_node n); cbn [negb].
  - destruct n as [body|[l op r|op x|[v|f|o]|k]|op|op]; try exact IH.
    + destruct (int_too_large v); [|exact IH]. intros E. inversion E. eauto.
    + destruct (float_too_large f); [|exact IH]. intros E. inversion E. eauto.
  - intros E. inversion E. eauto.
Qed.

Lemma expr_all_tree_ok (e : expr) : expr_all node_ok e = tree_ok e.
Proof.
  induction e as [l IHl op r IHr|op e IH|c|k]; cbn [expr_all tree_ok].
  - rewrite IHl, IHr. unfold node_ok at 1. cbn [allowed_node andb].
    destruct (tree_ok l), (node_ok (N_operator op)), (tree_ok r); reflexivity.
  - rewrite IH. unfold node_ok at 1. cbn [allowed_node andb]. reflexivity.
  - apply andb_true_r.
  - reflexivity.
Qed.

(** The loop over [ast.walk(tree)] passes exactly the trees of arithmetic
    within the bound. *)
Lemma check_walk (tree : expr) :
  check_nodes (walk (N_Expression tree)) = None <-> tree_ok tree = true.
Proof.
  rewrite check_nodes_none, walk_all. cbn [node_all].
  now rewrite expr_all_tree_ok.
Qed.

End EvaluatorFacts.

(** X4. A text with a character of the guard list (an ASCII letter, [_],
    a bracket, a brace, [;], [:], a backslash or a single quote) is rejected
    with "disallowed characters", whatever the parser and the interpreter
    would say of it. *)
Theorem eval_mathops_guard `{PyRuntime} (expr : pystr) (c : char) :
  In c expr -> In c disallowed_chars ->
  _eval_mathops expr = Raises (ValueError "disallowed characters").
Proof.
  intros Hs Hd. unfold _eval_mathops.
  pose proof (strip_keeps c expr Hs (disallowed_not_space c Hd)) as Hin.
  destruct (strip expr) as [|x s] eqn:E; [destruct Hin|].
  cbn [is_empty]. now rewrite (guard_hit (x :: s) c Hin Hd).
Qed.

Lemma eval_mathops_guard_witness :
  @_eval_mathops fragment_runtime (str " import os ")
  = Raises (ValueError "disallowed characters").
Proof.
  apply (@eval_mathops_guard fragment_runtime (str " import os ") 105%N);
    [ vm_compute; tauto | vm_compute; tauto ].
Defined.

(** X5. A text of white space only, the empty text included, is rejected
    with "empty expression". *)
Theorem eval_mathops_blank `{PyRuntime} (expr : pystr) :
  forallb is_space expr = true ->
  _eval_mathops expr = Raises (ValueError "empty expression").
Proof.
  intros Hb. unfold _eval_mathops. now rewrite (strip_blank expr Hb).
Qed.

Lemma eval_mathops_blank_witness :
  @_eval_mathops fragment_runtime (str "   ")
  = Raises (ValueError "empty expression").
Proof.
  apply (@eval_mathops_blank fragment_runtime (str "   ")). reflexivity.
Defined.

(** X6. White space before and after the expression does not count: the
    padded text is evaluated as the text itself. *)
Theorem eval_mathops_padding `{PyRuntime} (w1 expr w2 : pystr) :
  forallb is_space w1 = true -> forallb is_space w2 = true ->
  _eval_mathops (w1 ++ expr ++ w2) = _eval_mathops expr.
Proof.
  intros H1 H2. unfold _eval_mathops. now rewrite (strip_pad w1 expr w2 H1 H2).
Qed.

Lemma eval_mathops_padding_witness :
  @_eval_mathops fragment_runtime (str "  " ++ str "6*7" ++ [10%N])
  = @_eval_mathops fragment_runtime (str "6*7").
Proof.
  apply (@eval_mathops_padding fragment_runtime (str "  ") (str "6*7") [10%N]);
    reflexivity.
Defined.

(** X7. When the parser returns a tree that is not plain arithmetic within
    the bound (a node of another kind, another operator, an [int] or [float]
    literal of magnitude above [10**12]), the text is rejected with a
    [ValueError] and the tree is not evaluated: the outcome does not depend
    on the interpreter. *)
Theorem eval_mathops_rejects_tree `{PyRuntime} (text : pystr) (tree : expr) :
  ast_parse (strip text) = Returns tree ->
  tree_ok tree = false ->
  exists msg, _eval_mathops text = Raises (ValueError msg).
Proof.
  intros Hparse Hbad. unfold _eval_mathops.
  destruct (is_empty (strip text)); [eauto|].
  destruct (existsb _ disallowed_chars); [eauto|].
  rewrite Hparse.
  destruct (check_nodes (walk (N_Expression tree))) as [e|] eqn:Hc.
  - destruct (check_nodes_value_error _ _ Hc) as [msg ->]. eauto.
  - apply check_walk in Hc. congruence.
Qed.

Lemma eval_mathops_rejects_tree_witness :
  exists msg,
    @_eval_mathops fragment_runtime (str "2*1000000000001")
    = Raises (ValueError msg).
Proof.
  apply (@eval_mathops_rejects_tree fragment_runtime (str "2*1000000000001")
           (BinOp (Constant (CInt 2)) Mult (Constant (CInt 1000000000001))));
    vm_compute; reflexivity.
Defined.

(** X8. A value is returned only along one path: the stripped text is not
    empty and has no character of the guard list, the parser gave a tree of
    plain arithmetic within the bound, and the value is what the interpreter
    gave for that tree, a float without fractional part turned into the
    [int] it equals. *)
Theorem eval_mathops_returns `{PyRuntime} (expr : pystr) (v : value) :
  _eval_mathops expr = Returns v ->
  strip expr <> [] /\
  (forall c, In c (strip expr) -> ~ In c disallowed_chars) /\
  exists tree r,
    ast_parse (strip expr) = Returns tree /\ tree_ok tree = true /\
    py_eval tree = Returns r /\ v = coerce r.
Proof.
  unfold _eval_mathops. intros Hret.
  destruct (strip expr) as [|x s] eqn:Es; [discriminate|]. cbn [is_empty] in Hret.
  split; [discriminate|].
  destruct (existsb _ disallowed_chars) eqn:Eg; [discriminate|].
  split; [now apply guard_miss|].
  destruct (ast_parse (x :: s)) as [tree|e] eqn:Ep; [|destruct e; discriminate].
  destruct (check_nodes (walk (N_Expression tree))) eqn:Ec; [discriminate|].
  destruct (py_eval tree) as [r|e] eqn:Ev; [|discriminate].
  exists tree, r.
  split; [reflexivity|]. split; [now apply check_walk|]. split; [exact Ev|].
  destruct r as [z|f|o]; cbn [coerce]; [congruence| |congruence].
  destruct (float_as_integer f); congruence.
Qed.

Lemma eval_mathops_returns_witness :
  strip (str "10/5") <> [] /\
  (forall c, In c (strip (str "10/5")) -> ~ In c disallowed_chars) /\
  exists tree r,
    @ast_parse fragment_runtime (strip (str "10/5")) = Returns tree /\
    tree_ok tree = true /\
    @py_eval fragment_runtime tree = Returns r /\ VInt 2 = coerce r.
Proof.
  apply (@eval_mathops_returns fragment_runtime (str "10/5") (VInt 2)).
  vm_compute. reflexivity.
Defined.

(** X9. A float is returned only if it is not a whole number: a finite
    float without fractional part never leaves [_eval_mathops] as a float. *)
Theorem eval_mathops_float `{PyRuntime} (expr : pystr) (f : float) :
  _eval_mathops expr = Returns (VFloat f) -> float_as_integer f = None.
Proof.
  unfold _eval_mathops.
  destruct (is_empty (strip expr)); [discriminate|].
  destruct (existsb _ disallowed_chars); [discriminate|].
  destruct (ast_parse (strip expr)) as [tree|e]; [|destruct e; discriminate].
  destruct (check_nodes (walk (N_Expression tree))); [discriminate|].
  destruct (py_eval tree) as [[z|g|o]|e]; try discriminate.
  destruct (float_as_integer g) eqn:Eg; [discriminate|].
  intros E. now inversion E; subst.
Qed.

Lemma eval_mathops_float_witness : float_as_integer 2.5%float = None.
Proof.
  apply (@eval_mathops_float fragment_runtime (str "10/4") 2.5%float).
  vm_compute. reflexivity.
Defined.

(** ** Mode resolution *)

Section ResolutionFacts.

Lemma trigger_hit_iff (mode : Mode.t) (barcode : pystr) :
  trigger_hit mode barcode = true <-> has_trigger mode barcode.
Proof.
  unfold trigger_hit, has_trigger. split.
  - destruct (Mode.trigger mode) as [[|t ts]|]; try discriminate.
    intros Hin. apply str_in_In in Hin. exists (t :: ts). now split.
  - intros (triggers & Et & Hin). rewrite Et.
    destruct triggers as [|t ts]; [destruct Hin|]. now apply str_in_In.
Qed.

Lemma first_prefix_some (mode : Mode.t) (barcode pref : pystr) :
  first_prefix mode barcode = Some pref ->
  exists prefixes rest,
    Mode.prefix_trigger mode = Some prefixes /\ In pref prefixes /\
    barcode = pref ++ rest.
Proof.
  unfold first_prefix. destruct (Mode.prefix_trigger mode) as [prefixes|]; [|discriminate].
  intros Hf. apply find_some in Hf as [Hin Hs].
  apply startswith_app in Hs as [rest ->]. exists prefixes, rest. now repeat split.
Qed.

Lemma prefix_hit_iff (mode : Mode.t) (barcode : pystr) :
  prefix_hit mode barcode = true <-> has_prefix mode barcode.
Proof.
  unfold prefix_hit, has_prefix. split.
  - destruct (first_prefix mode barcode) as [pref|] eqn:E; [|discriminate].
    intros _. apply first_prefix_some in E as (prefixes & rest & E1 & E2 & E3).
    exists prefixes, pref, rest. auto.
  - intros (prefixes & pref & rest & Ep & Hin & ->).
    unfold first_prefix. rewrite Ep.
    destruct (find (startswith (pref ++ rest)) prefixes) eqn:Ef; [reflexivity|].
    apply (find_none _ _ Ef) in Hin.
    assert (startswith (pref ++ rest) pref = true) by (apply startswith_app; eauto).
    congruence.
Qed.

Lemma find_first {A} (f : A -> bool) (pre : list A) (x : A) (post : list A) :
  (forall y, In y pre -> f y = false) -> f x = true ->
  find f (pre ++ x :: post) = Some x.
Proof.
  intros Hpre Hx. induction pre as [|y pre IH]; simpl.
  - now rewrite Hx.
  - rewrite (Hpre y) by now left. apply IH. intros z Hz. apply Hpre. now right.
Qed.

Lemma not_true_false (b : bool) (P : Prop) : (b = true <-> P) -> ~ P -> b = false.
Proof. intros [H1 H2] HP. destruct b; [exfalso; now apply HP, H1|reflexivity]. Qed.

End ResolutionFacts.

(** X10. [find_mode] finds nothing exactly when the token is no trigger of
    any mode and starts with no prefix of any mode. *)
Theorem find_mode_none (modes : dict Mode.t) (barcode : pystr) :
  find_mode modes barcode = None <->
  forall mode, In mode (values modes) ->
    ~ has_trigger mode barcode /\ ~ has_prefix mode barcode.
Proof.
  unfold find_mode. split.
  - destruct (find _ (values modes)) eqn:Et; [discriminate|]. intros Ep mode Hin.
    pose proof (find_none _ _ Et mode Hin) as Ht.
    pose proof (find_none _ _ Ep mode Hin) as Hp. cbn beta in Ht, Hp.
    split; intros Hyes.
    + apply trigger_hit_iff in Hyes. congruence.
    + apply prefix_hit_iff in Hyes. congruence.
  - intros Hall.
    destruct (find _ (values modes)) as [mode|] eqn:Et.
    + apply find_some in Et as [Hin Ht]. apply trigger_hit_iff in Ht.
      now destruct (Hall mode Hin).
    + destruct (find (fun mode => prefix_hit mode barcode) (values modes))
        as [mode|] eqn:Ep; [|reflexivity].
      apply find_some in Ep as [Hin Hp]. apply prefix_hit_iff in Hp.
      now destruct (Hall mode Hin).
Qed.

(** X11. What [find_mode] returns is one of the modes, and the token is one
    of its triggers, or else the token starts with one of its prefixes and is
    a trigger of no mode at all. *)
Theorem find_mode_some (modes : dict Mode.t) (barcode : pystr) (mode : Mode.t) :
  find_mode modes barcode = Some mode ->
  In mode (values modes) /\
  (has_trigger mode barcode \/
   has_prefix mode barcode /\
   forall other, In other (values modes) -> ~ has_trigger other barcode).
Proof.
  unfold find_mode.
  destruct (find (fun mode => trigger_hit mode barcode) (values modes))
    as [hit|] eqn:Et.
  - intros E. inversion E; subst. apply find_some in Et as [Hin Ht].
    split; [assumption|left; now apply trigger_hit_iff].
  - intros Ep. apply find_some in Ep as [Hin Hp].
    split; [assumption|right]. split; [now apply prefix_hit_iff|].
    intros other Hother Hyes. apply trigger_hit_iff in Hyes.
    pose proof (find_none _ _ Et other Hother) as Hno. cbn beta in Hno. congruence.
Qed.

Lemma find_mode_some_witness :
  let scan := {| Mode.name := str "SCAN"; Mode.endpoint := str "http://h/scan";
                 Mode.method := str "POST"; Mode.enable_input := false;
                 Mode.trigger := Some [str "SW"];
                 Mode.prefix_trigger := Some [str "X-"];
                 Mode.strip_prefix := true; Mode.timeout := None;
                 Mode.header := None; Mode.eval_mathops := true;
                 Mode.enable_trigger_req := false |} in
  let modes := [(str "SCAN", scan)] in
  In scan (values modes) /\
  (has_trigger scan (str "X-12345") \/
   has_prefix scan (str "X-12345") /\
   forall other, In other (values modes) -> ~ has_trigger other (str "X-12345")).
Proof.
  intros scan modes. apply (find_mode_some modes (str "X-12345") scan).
  reflexivity.
Defined.

(** X12. Triggers come first: the first mode, in the order of the
    dictionary, that has the token among its triggers is returned, whatever
    prefixes the modes before it have. *)
Theorem find_mode_first_trigger
  (modes : dict Mode.t) (barcode : pystr)
  (before : list Mode.t) (mode : Mode.t) (after : list Mode.t) :
  values modes = before ++ mode :: after ->
  (forall other, In other before -> ~ has_trigger other barcode) ->
  has_trigger mode barcode ->
  find_mode modes barcode = Some mode.
Proof.
  intros Eq Hbefore Hmode. unfold find_mode. rewrite Eq, find_first; [reflexivity| |].
  - intros other Hin. apply (not_true_false _ _ (trigger_hit_iff other barcode)).
    now apply Hbefore.
  - now apply trigger_hit_iff.
Qed.

Lemma find_mode_first_trigger_witness :
  let mk name triggers prefixes :=
    {| Mode.name := str name; Mode.endpoint := []; Mode.method := str "POST";
       Mode.enable_input := false; Mode.trigger := triggers;
       Mode.prefix_trigger := prefixes; Mode.strip_prefix := false;
       Mode.timeout := None; Mode.header := None; Mode.eval_mathops := true;
       Mode.enable_trigger_req := false |} in
  let a := mk "A"%string None (Some [str "S"]) in
  let b := mk "B"%string (Some [str "SW"]) None in
  find_mode [(str "A", a); (str "B", b)] (str "SW") = Some b.
Proof.
  intros mk a b.
  apply (find_mode_first_trigger [(str "A", a); (str "B", b)] (str "SW") [a] b []).
  - reflexivity.
  - intros other [<-|[]] (triggers & E & _). discriminate E.
  - exists [str "SW"]. split; [reflexivity|now left].
Defined.

(** X13. Without a trigger anywhere, prefixes decide: the first mode, in the
    order of the dictionary, one of whose prefixes starts the token is
    returned. *)
Theorem find_mode_first_prefix
  (modes : dict Mode.t) (barcode : pystr)
  (before : list Mode.t) (mode : Mode.t) (after : list Mode.t) :
  (forall other, In other (values modes) -> ~ has_trigger other barcode) ->
  values modes = before ++ mode :: after ->
  (forall other, In other before -> ~ has_prefix other barcode) ->
  has_prefix mode barcode ->
  find_mode modes barcode = Some mode.
Proof.
  intros Hnone Eq Hbefore Hmode. unfold find_mode.
  destruct (find (fun m => trigger_hit m barcode) (values modes)) as [hit|] eqn:Et.
  - apply find_some in Et as [Hin Ht]. apply trigger_hit_iff in Ht.
    now destruct (Hnone hit Hin).
  - rewrite Eq. apply find_first.
    + intros other Hin. apply (not_true_false _ _ (prefix_hit_iff other barcode)).
      now apply Hbefore.
    + now apply prefix_hit_iff.
Qed.

Lemma find_mode_first_prefix_witness :
  let mk name triggers prefixes :=
    {| Mode.name := str name; Mode.endpoint := []; Mode.method := str "POST";
       Mode.enable_input := false; Mode.trigger := triggers;
       Mode.prefix_trigger := prefixes; Mode.strip_prefix := false;
       Mode.timeout := None; Mode.header := None; Mode.eval_mathops := true;
       Mode.enable_trigger_req := false |} in
  let a := mk "A"%string (Some [str "SW"]) None in
  let b := mk "B"%string None (Some [str "Y-"; str "X-"]) in
  find_mode [(str "A", a); (str "B", b)] (str "X-1") = Some b.
Proof.
  intros mk a b.
  apply (find_mode_first_prefix [(str "A", a); (str "B", b)] (str "X-1") [a] b []).
  - intros other [<-|[<-|[]]] (triggers & E & Hin).
    + inversion E; subst. destruct Hin as [Hin|[]]. discriminate Hin.
    + discriminate E.
  - reflexivity.
  - intros other [<-|[]] (prefixes & pref & rest & E & _). discriminate E.
  - exists [str "Y-"; str "X-"], (str "X-"), (str "1").
    split; [reflexivity|]. split; [right; now left|reflexivity].
Defined.

(** ** Loading the modes *)

Section DictFacts.

Context {V : Type}.

Lemma dict_get_set (d : dict V) (k k' : pystr) (v : V) :
  dict_get (dict_set d k v) k' = if eqb_str k k' then Some v else dict_get d k'.
Proof.
  induction d as [|[x w] d IH]; simpl.
  - reflexivity.
  - destruct (eqb_str x k) eqn:Exk; simpl.
    + apply eqb_str_eq in Exk as ->. now destruct (eqb_str k k').
    + rewrite IH. destruct (eqb_str x k') eqn:Exk'; [|reflexivity].
      destruct (eqb_str k k') eqn:Ekk'; [|reflexivity].
      apply eqb_str_eq in Exk', Ekk'. subst.
      rewrite eqb_str_refl in Exk. discriminate.
Qed.

Lemma dict_set_keys (d : dict V) (k : pystr) (v : V) :
  keys (dict_set d k v) = if str_in k (keys d) then keys d else keys d ++ [k].
Proof.
  unfold keys, str_in. induction d as [|[x w] d IH]; simpl; [reflexivity|].
  destruct (eqb_str x k) eqn:Exk; simpl.
  - apply eqb_str_eq in Exk as ->. now rewrite eqb_str_refl.
  - assert (Ekx : eqb_str k x = false).
    { apply eqb_str_neq. apply eqb_str_neq in Exk. congruence. }
    rewrite Ekx, IH. simpl. now destruct (existsb (eqb_str k) (List.map fst d)).
Qed.

Lemma dict_set_In (d : dict V) (k : pystr) (v : V) (k' : pystr) (v' : V) :
  In (k', v') (dict_set d k v) -> (k', v') = (k, v) \/ In (k', v') d.
Proof.
  induction d as [|[x w] d IH]; simpl.
  - intros [E|[]]. left. now symmetry.
  - destruct (eqb_str x k) eqn:Exk; simpl.
    + apply eqb_str_eq in Exk as ->. intros [E|Hin]; [left; now symmetry|auto].
    + intros [E|Hin]; [auto|]. destruct (IH Hin); auto.
Qed.

Lemma dict_set_NoDup (d : dict V) (k : pystr) (v : V) :
  NoDup (keys d) -> NoDup (keys (dict_set d k v)).
Proof.
  intros Hd. rewrite dict_set_keys.
  destruct (str_in k (keys d)) eqn:Ek; [assumption|].
  apply NoDup_app; [assumption|repeat constructor; intros []|].
  intros x Hx [<-|[]]. apply str_in_In in Hx. congruence.
Qed.

End DictFacts.

Section LoadFacts.

Lemma find_last {A} (f : A -> bool) (l : list A) (x : A) :
  find f (l ++ [x]) =
  match find f l with
  | Some y => Some y
  | None => if f x then Some x else None
  end.
Proof.
  induction l as [|y l IH]; simpl; [reflexivity|].
  destruct (f y); [reflexivity|exact IH].
Qed.

Lemma load_modes_into_get (files : list mode_file) :
  forall (modes : dict Mode.t) (k : pystr),
    dict_get (load_modes_into modes files) k =
    match find (fun mode => eqb_str (Mode.name mode) k) (rev (defined files)) with
    | Some mode => Some mode
    | None => dict_get modes k
    end.
Proof.
  induction files as [|[| |mode] files IH]; intros modes k; cbn [load_modes_into defined].
  - reflexivity.
  - apply IH.
  - apply IH.
  - rewrite IH. cbn [rev]. rewrite find_last, dict_get_set.
    destruct (find _ (rev (defined files))); [reflexivity|].
    now destruct (eqb_str (Mode.name mode) k).
Qed.

Lemma load_modes_into_keys (files : list mode_file) :
  forall modes : dict Mode.t,
    NoDup (keys modes) ->
    (forall k mode, In (k, mode) modes -> k = Mode.name mode) ->
    NoDup (keys (load_modes_into modes files)) /\
    (forall k mode, In (k, mode) (load_modes_into modes files) ->
                    k = Mode.name mode /\
                    (In (k, mode) modes \/ In (Defines mode) files)).
Proof.
  induction files as [|[| |m] files IH]; intros modes Hnd Hname;
    cbn [load_modes_into].
  - split; [assumption|]. intros k mode Hin. split; [now apply Hname|now left].
  - destruct (IH modes Hnd Hname) as [H1 H2]. split; [assumption|].
    intros k mode Hin. destruct (H2 k mode Hin) as [E [Hm|Hf]]; simpl; auto.
  - destruct (IH modes Hnd Hname) as [H1 H2]. split; [assumption|].
    intros k mode Hin. destruct (H2 k mode Hin) as [E [Hm|Hf]]; simpl; auto.
  - destruct (IH (dict_set modes (Mode.name m) m)) as [H1 H2].
    + now apply dict_set_NoDup.
    + intros k mode Hin. apply dict_set_In in Hin as [E|Hin];
        [now inversion E|now apply Hname].
    + split; [assumption|]. intros k mode Hin.
      destruct (H2 k mode Hin) as [E [Hm|Hf]]; split; try assumption.
      * apply dict_set_In in Hm as [E'|Hm]; [|now left].
        right. left. now inversion E'.
      * right. now right.
Qed.

End LoadFacts.

(** X14. In the dictionary [load_modes] builds, no name occurs twice, every
    mode is stored under its own name, and every mode stored comes from one
    of the files. *)
Theorem load_modes_names (files : list mode_file) :
  NoDup (keys (load_modes files)) /\
  forall k mode, In (k, mode) (load_modes files) ->
                 k = Mode.name mode /\ In (Defines mode) files.
Proof.
  destruct (load_modes_into_keys files []) as [H1 H2].
  - constructor.
  - intros k mode [].
  - split; [assumption|]. intros k mode Hin.
    destruct (H2 k mode Hin) as [E [[]|Hf]]. now split.
Qed.

(** X15. When several files define a mode of the same name, the last one
    read is the one kept; files that do not parse or lack a required key
    change nothing.  Looking a name up in the result gives the last mode of
    that name among the modes the files define. *)
Theorem load_modes_last_wins (files : list mode_file) (k : pystr) :
  dict_get (load_modes files) k =
  find (fun mode => eqb_str (Mode.name mode) k) (rev (defined files)).
Proof.
  unfold load_modes. rewrite load_modes_into_get.
  now destruct (find _ (rev (defined files))).
Qed.

(** ** The session *)

Section SessionFacts.

Context {R : PyRuntime}.
Variable modes : dict Mode.t.
Variable default_mode : Mode.t.
Variable idle_timeout : option Z.

Lemma is_default_default : is_default default_mode default_mode = true.
Proof. apply eqb_str_refl. Qed.

Lemma cancel_timer_effect (s : Session) :
  live_timers s = [] \/ (exists t, live_timers s = [t] /\ idle_timer s = Some t) ->
  let s' := snd (cancel_timer s) in
  live_timers s' = [] /\ idle_timer s' = None /\
  current_mode s' = current_mode s /\ timers_made s' = timers_made s /\
  events s' = events s /\ calls s' = calls s.
Proof.
  intros Hone. unfold cancel_timer.
  destruct Hone as [Hnil|(t & Ht & Hh)].
  - destruct (idle_timer s) as [t|] eqn:Eh; cbn.
    + rewrite Hnil. cbn. tauto.
    + rewrite Hnil. tauto.
  - rewrite Hh. cbn. rewrite Ht. cbn.
    destruct (Nat.eq_dec t t); [tauto|congruence].
Qed.

(** What [schedule_timeout] leaves behind, from a session that keeps the
    timer discipline. *)
Lemma schedule_timeout_effect (s : Session) :
  (live_timers s = [] \/ exists t, live_timers s = [t] /\ idle_timer s = Some t) ->
  (timeout_disabled idle_timeout = true -> live_timers s = []) ->
  let s' := snd (schedule_timeout default_mode idle_timeout s) in
  current_mode s' = current_mode s /\ events s' = events s /\
  calls s' = calls s /\
  (if (timeout_disabled idle_timeout || is_default default_mode (current_mode s))%bool
   then live_timers s' = []
   else live_timers s' = [timers_made s] /\ idle_timer s' = Some (timers_made s)).
Proof.
  intros Hone Hoff. unfold schedule_timeout.
  destruct (timeout_disabled idle_timeout) eqn:Ed; cbn [orb].
  - cbn. repeat split. now apply Hoff.
  - unfold bind, get_mode.
    destruct (is_default default_mode (current_mode s)) eqn:Edef.
    + destruct (cancel_timer_effect s Hone) as (H1 & H2 & H3 & H4 & H5 & H6).
      repeat split; assumption.
    + destruct (cancel_timer_effect s Hone) as (H1 & H2 & H3 & H4 & H5 & H6).
      destruct (cancel_timer s) as [u s1]. cbn in *.
      rewrite H1, H4. repeat split; assumption.
Qed.

Lemma schedule_timeout_ok (s : Session) :
  (live_timers s = [] \/ exists t, live_timers s = [t] /\ idle_timer s = Some t) ->
  (timeout_disabled idle_timeout = true -> live_timers s = []) ->
  timers_ok default_mode idle_timeout
    (snd (schedule_timeout default_mode idle_timeout s)).
Proof.
  intros Hone Hoff.
  destruct (schedule_timeout_effect s Hone Hoff) as (Hm & _ & _ & Ht).
  unfold timers_ok. rewrite Hm.
  destruct (timeout_disabled idle_timeout) eqn:Ed; cbn [orb] in Ht.
  - rewrite Ht. repeat split; [now left|congruence].
  - destruct (is_default default_mode (current_mode s)) eqn:Edef.
    + rewrite Ht. repeat split; [now left|congruence].
    + destruct Ht as [Hl Hh]. rewrite Hl. repeat split.
      * right. eauto.
      * discriminate.
Qed.

Lemma dispatch_effect (effective : Mode.t) (payload : Payload.t) (answer : sent)
  (s : Session) :
  let s' := snd (dispatch effective payload answer s) in
  mode_and_timer s' = mode_and_timer s /\
  calls s' = calls s ++
    [{| Call.method := Mode.method effective;
        Call.endpoint := Mode.endpoint effective;
        Call.payload := payload;
        Call.timeout := Mode.timeout effective;
        Call.headers := Mode.header effective |}] /\
  exists e, events s' = events s ++ [e] /\
            forall to_mode reason, e <> E_mode_auto_revert to_mode reason.
Proof.
  unfold dispatch, bind, log_event.
  destruct answer as [[|] status text|error]; cbn;
    (split; [reflexivity|split; [reflexivity|]]);
    eexists; (split; [reflexivity|discriminate]).
Qed.

Lemma schedule_timeout_frame (s : Session) :
  let s' := snd (schedule_timeout default_mode idle_timeout s) in
  current_mode s' = current_mode s /\ events s' = events s /\ calls s' = calls s.
Proof.
  unfold schedule_timeout, bind, get_mode, cancel_timer, start_timer, ret.
  destruct (timeout_disabled idle_timeout); [cbn; auto|].
  destruct (is_default default_mode (current_mode s));
    destruct (idle_timer s); cbn; auto.
Qed.

Lemma scan_frame (effective : Mode.t) (ephemeral : bool)
  (raw_barcode barcode extra : pystr) (answer : sent) (s : Session) :
  let r := scan default_mode idle_timeout effective ephemeral raw_barcode
             barcode extra answer s in
  fst r = Continue /\
  current_mode (snd r) = current_mode s /\
  (ephemeral = true -> mode_and_timer (snd r) = mode_and_timer s) /\
  scan_sent effective raw_barcode barcode s (snd r).
Proof.
  unfold scan.
  set (plain := {| Payload.barcode := barcode; Payload.mode := Mode.name effective;
                   Payload.action := str "scan";
                   Payload.raw_barcode :=
                     if eqb_str raw_barcode barcode then None else Some raw_barcode;
                   Payload.input := None |}).
  assert (Hsend : forall payload,
    Payload.barcode payload = barcode ->
    Payload.mode payload = Mode.name effective ->
    Payload.raw_barcode payload
      = (if eqb_str raw_barcode barcode then None else Some raw_barcode) ->
    (Payload.input payload = None /\ Payload.action payload = str "scan" \/
      exists text, Payload.input payload = Some (sanitize_input text) /\
                   Payload.action payload = str "scan+input") ->
    let r := (dispatch effective payload answer ;;
              (if ephemeral then ret tt
               else schedule_timeout default_mode idle_timeout) ;;
              ret Continue) s in
    fst r = Continue /\
    current_mode (snd r) = current_mode s /\
    (ephemeral = true -> mode_and_timer (snd r) = mode_and_timer s) /\
    scan_sent effective raw_barcode barcode s (snd r)).
  { intros payload P1 P2 P3 P4.
    destruct (dispatch_effect effective payload answer s) as (Hcore & Hcalls & _).
    unfold bind at 1. destruct (dispatch effective payload answer s) as [u s1].
    cbn [snd] in Hcore, Hcalls. pose proof Hcore as Hcore'.
    unfold mode_and_timer in Hcore'. injection Hcore' as Hm Hh Hl Hn.
    destruct ephemeral.
    - unfold bind, ret. cbn [fst snd]. split; [reflexivity|].
      split; [assumption|]. split; [intros _; assumption|].
      right. exists payload. auto.
    - destruct (schedule_timeout_frame s1) as (Hm1 & _ & Hc1).
      unfold bind. destruct (schedule_timeout default_mode idle_timeout s1) as [u1 s2].
      unfold ret. cbn [fst snd] in *. split; [reflexivity|].
      split; [congruence|]. split; [discriminate|].
      right. exists payload. rewrite Hc1. auto. }
  destruct (Mode.enable_input effective && negb (is_empty extra))%bool.
  - destruct (input_text effective extra) as [text|e].
    + apply Hsend; cbn [Payload.barcode Payload.mode Payload.raw_barcode
                        Payload.input Payload.action plain]; auto.
      right. exists text. auto.
    + unfold ret. cbn [fst snd].
      split; [reflexivity|]. split; [reflexivity|].
      split; [reflexivity|now left].
  - apply Hsend; cbn [Payload.barcode Payload.mode Payload.raw_barcode
                      Payload.input Payload.action plain]; auto.
Qed.

(** It keeps the timer discipline; unless the match was ephemeral or [str]
    raised, it leaves the timer as [schedule_timeout] sets it. *)
Lemma scan_ok (effective : Mode.t) (ephemeral : bool)
  (raw_barcode barcode extra : pystr) (answer : sent) (s : Session) :
  timers_ok default_mode idle_timeout s ->
  let r := scan default_mode idle_timeout effective ephemeral raw_barcode
             barcode extra answer s in
  timers_ok default_mode idle_timeout (snd r) /\
  (snd r = s \/ ephemeral = true \/
   if (timeout_disabled idle_timeout
       || is_default default_mode (current_mode s))%bool
   then live_timers (snd r) = []
   else live_timers (snd r) = [timers_made s] /\
        idle_timer (snd r) = Some (timers_made s)).
Proof.
  intros Hok. unfold scan.
  assert (Hsend : forall payload,
    let r := (dispatch effective payload answer ;;
              (if ephemeral then ret tt
               else schedule_timeout default_mode idle_timeout) ;;
              ret Continue) s in
    timers_ok default_mode idle_timeout (snd r) /\
    (snd r = s \/ ephemeral = true \/
     if (timeout_disabled idle_timeout
         || is_default default_mode (current_mode s))%bool
     then live_timers (snd r) = []
     else live_timers (snd r) = [timers_made s] /\
          idle_timer (snd r) = Some (timers_made s))).
  { intros payload.
    destruct (dispatch_effect effective payload answer s) as (Hcore & _ & _).
    unfold bind at 1. destruct (dispatch effective payload answer s) as [u s1].
    cbn [snd] in Hcore. unfold mode_and_timer in Hcore.
    injection Hcore as Hm Hh Hl Hn.
    destruct Hok as (Hone & Hoff & Hdef).
    destruct ephemeral.
    - unfold bind, ret. cbn [fst snd]. split; [|auto].
      unfold timers_ok. rewrite Hm, Hh, Hl. auto.
    - assert (Hone1 : live_timers s1 = [] \/
                      exists t, live_timers s1 = [t] /\ idle_timer s1 = Some t)
        by (rewrite Hl, Hh; exact Hone).
      assert (Hoff1 : timeout_disabled idle_timeout = true -> live_timers s1 = [])
        by (rewrite Hl; exact Hoff).
      pose proof (schedule_timeout_ok s1 Hone1 Hoff1) as Hok1.
      destruct (schedule_timeout_effect s1 Hone1 Hoff1) as (_ & _ & _ & Ht1).
      unfold bind. destruct (schedule_timeout default_mode idle_timeout s1) as [u1 s2].
      unfold ret. cbn [fst snd] in *. split; [assumption|].
      right. right. now rewrite <- Hm, <- Hn. }
  destruct (Mode.enable_input effective && negb (is_empty extra))%bool.
  - destruct (input_text effective extra) as [text|e].
    + apply Hsend.
    + unfold ret. cbn [fst snd]. split; [exact Hok|now left].
  - apply Hsend.
Qed.

(** The call a switch makes when the mode asks for one. *)
Lemma switch_effect (line extra : pystr) (answer : sent) (s : Session)
  (triggered_mode : Mode.t) :
  let barcode := sanitize_input (strip line) in
  is_empty line = false -> is_empty barcode = false ->
  find_mode modes barcode = Some triggered_mode ->
  trigger_hit triggered_mode barcode = true ->
  timers_ok default_mode idle_timeout s ->
  let r := process_line modes default_mode idle_timeout line extra answer s in
  fst r = Continue /\
  current_mode (snd r) = triggered_mode /\
  timers_ok default_mode idle_timeout (snd r) /\
  (if (timeout_disabled idle_timeout || is_default default_mode triggered_mode)%bool
   then live_timers (snd r) = []
   else live_timers (snd r) = [timers_made s] /\
        idle_timer (snd r) = Some (timers_made s)) /\
  calls (snd r) = calls s ++
    (if Mode.enable_trigger_req triggered_mode then
       [{| Call.method := Mode.method triggered_mode;
           Call.endpoint := Mode.endpoint triggered_mode;
           Call.payload :=
             {| Payload.barcode := barcode;
                Payload.mode := Mode.name triggered_mode;
                Payload.action := str "mode";
                Payload.raw_barcode := None;
                Payload.input := None |};
           Call.timeout := Mode.timeout triggered_mode;
           Call.headers := Mode.header triggered_mode |}]
     else []) /\
  exists more,
    events (snd r) = events s
      ++ E_mode_switch (Mode.name triggered_mode) barcode :: more /\
    forall to_mode reason, ~ In (E_mode_auto_revert to_mode reason) more.
Proof.
  intros barcode Hline Hbar Hfind Hhit (Hone & Hoff & Hdef) r.
  assert (Er : r = process_line modes default_mode idle_timeout line extra answer s)
    by reflexivity.
  clearbody r. unfold process_line in Er. rewrite Hline in Er.
  fold barcode in Er. rewrite Hbar in Er.
  unfold bind at 1 in Er. unfold get_mode at 1 in Er. rewrite Hfind, Hhit in Er.
  unfold bind at 1 in Er. unfold put_mode at 1 in Er.
  unfold bind at 1 in Er. unfold log_event at 1 in Er.
  set (s2 := add_event (E_mode_switch (Mode.name triggered_mode) barcode)
               (set_mode triggered_mode s)) in Er.
  assert (Hone2 : live_timers s2 = [] \/
                  exists t, live_timers s2 = [t] /\ idle_timer s2 = Some t)
    by exact Hone.
  assert (Hoff2 : timeout_disabled idle_timeout = true -> live_timers s2 = [])
    by exact Hoff.
  pose proof (schedule_timeout_ok s2 Hone2 Hoff2) as Hok3.
  destruct (schedule_timeout_effect s2 Hone2 Hoff2) as (Hm3 & He3 & Hc3 & Ht3).
  unfold bind at 1 in Er.
  destruct (schedule_timeout default_mode idle_timeout s2) as [u s3].
  cbn [snd] in Hok3, Hm3, He3, Hc3, Ht3.
  change (current_mode s2) with triggered_mode in Hm3, Ht3.
  change (timers_made s2) with (timers_made s) in Ht3.
  change (calls s2) with (calls s) in Hc3.
  change (events s2)
    with (events s ++ [E_mode_switch (Mode.name triggered_mode) barcode]) in He3.
  destruct (Mode.enable_trigger_req triggered_mode); cbn [negb] in Er.
  - set (payload := {| Payload.barcode := barcode;
                       Payload.mode := Mode.name triggered_mode;
                       Payload.action := str "mode";
                       Payload.raw_barcode := None;
                       Payload.input := None |}) in *.
    destruct (dispatch_effect triggered_mode payload answer s3)
      as (Hcore & Hcalls & e & Hev & Hnot).
    unfold bind in Er. destruct (dispatch triggered_mode payload answer s3) as [u4 s4].
    unfold ret in Er. subst r. cbn [fst snd] in *. unfold mode_and_timer in Hcore.
    injection Hcore as Hm4 Hh4 Hl4 Hn4.
    split; [reflexivity|]. split; [congruence|]. split.
    + unfold timers_ok. rewrite Hm4, Hh4, Hl4. exact Hok3.
    + split; [now rewrite Hl4, Hh4|]. split; [now rewrite Hcalls, Hc3|].
      exists [e]. split.
      * rewrite Hev, He3, <- app_assoc. reflexivity.
      * intros to_mode reason [E|[]]. now apply (Hnot to_mode reason).
  - unfold ret in Er. subst r. cbn [fst snd]. split; [reflexivity|].
    split; [assumption|]. split; [assumption|]. split; [assumption|].
    split; [now rewrite Hc3, app_nil_r|].
    exists []. split; [assumption|]. intros to_mode reason [].
Qed.

(** The loop body keeps the timer discipline. *)
Lemma process_line_ok (line extra : pystr) (answer : sent) (s : Session) :
  timers_ok default_mode idle_timeout s ->
  timers_ok default_mode idle_timeout
    (snd (process_line modes default_mode idle_timeout line extra answer s)).
Proof.
  intros Hok.
  destruct (is_empty line) eqn:Hline.
  { unfold process_line. rewrite Hline. exact Hok. }
  destruct (is_empty (sanitize_input (strip line))) eqn:Hbar.
  { unfold process_line. rewrite Hline, Hbar. exact Hok. }
  destruct (find_mode modes (sanitize_input (strip line))) as [tm|] eqn:Hfind.
  - destruct (trigger_hit tm (sanitize_input (strip line))) eqn:Hhit.
    + now apply (switch_effect line extra answer s tm Hline Hbar Hfind Hhit Hok).
    + unfold process_line. rewrite Hline, Hbar.
      unfold bind at 1. unfold get_mode at 1. rewrite Hfind, Hhit.
      destruct (first_prefix tm (sanitize_input (strip line)));
        now apply scan_ok.
  - unfold process_line. rewrite Hline, Hbar.
    unfold bind at 1. unfold get_mode at 1. rewrite Hfind.
    now apply scan_ok.
Qed.

Lemma timer_fires_ok (t : nat) (s : Session) :
  timers_ok default_mode idle_timeout s -> In t (live_timers s) ->
  timers_ok default_mode idle_timeout (snd (timer_fires default_mode t s)) /\
  live_timers (snd (timer_fires default_mode t s)) = [] /\
  is_default default_mode (current_mode (snd (timer_fires default_mode t s))) = true.
Proof.
  intros (Hone & Hoff & Hdef) Hin.
  destruct Hone as [Hnil|(t' & Ht' & Hh)]; [rewrite Hnil in Hin; destruct Hin|].
  rewrite Ht' in Hin. destruct Hin as [<-|[]].
  unfold timer_fires, _do_timeout, bind, get_mode. cbn [current_mode].
  rewrite Ht'. cbn [remove]. destruct (Nat.eq_dec t' t'); [|congruence].
  destruct (is_default default_mode (current_mode s)) eqn:Ed.
  - assert (true = false) by (apply Hdef; rewrite Ht'; discriminate). discriminate.
  - unfold timers_ok, bind, put_mode, log_event. cbn.
    repeat split; auto; try congruence. apply is_default_default.
Qed.

Lemma startup_ok : timers_ok default_mode idle_timeout (startup modes default_mode).
Proof. repeat split; cbn; auto; congruence. Qed.

End SessionFacts.

Section ReachableFacts.

Context {R : PyRuntime}.
Variable modes : dict Mode.t.
Variable default_mode : Mode.t.
Variable idle_timeout : option Z.

Lemma find_mode_In (barcode : pystr) (mode : Mode.t) :
  find_mode modes barcode = Some mode -> In mode (values modes).
Proof.
  unfold find_mode.
  destruct (find (fun m => trigger_hit m barcode) (values modes)) as [hit|] eqn:Et.
  - intros E. inversion E; subst. now apply find_some in Et.
  - intros Ep. now apply find_some in Ep.
Qed.

Lemma find_mode_prefix (barcode : pystr) (mode : Mode.t) :
  find_mode modes barcode = Some mode -> trigger_hit mode barcode = false ->
  exists pref rest, first_prefix mode barcode = Some pref /\ barcode = pref ++ rest.
Proof.
  unfold find_mode.
  destruct (find (fun m => trigger_hit m barcode) (values modes)) as [hit|] eqn:Et.
  - intros E Hno. inversion E; subst. apply find_some in Et as [_ Ht]. congruence.
  - intros Ep _. apply find_some in Ep as [_ Hp]. unfold prefix_hit in Hp.
    destruct (first_prefix mode barcode) as [pref|] eqn:Ef; [|discriminate].
    destruct (first_prefix_some _ _ _ Ef) as (prefixes & rest & _ & _ & E).
    exists pref, rest. now split.
Qed.

(** The loop body, case by case. *)
Lemma process_line_cases (line extra : pystr) (answer : sent) (s : Session) :
  let barcode := sanitize_input (strip line) in
  let r := process_line modes default_mode idle_timeout line extra answer s in
  (is_empty line = true /\ r = (Break, add_event E_stdin_eof s)) \/
  (is_empty line = false /\ is_empty barcode = true /\ r = (Continue, s)) \/
  (is_empty line = false /\ is_empty barcode = false /\
   exists mode, find_mode modes barcode = Some mode /\
                trigger_hit mode barcode = true) \/
  (is_empty line = false /\ is_empty barcode = false /\
   exists mode pref rest,
     find_mode modes barcode = Some mode /\ trigger_hit mode barcode = false /\
     first_prefix mode barcode = Some pref /\ barcode = pref ++ rest /\
     r = scan default_mode idle_timeout mode true barcode
           (if Mode.strip_prefix mode then rest else barcode) extra answer s) \/
  (is_empty line = false /\ is_empty barcode = false /\
   find_mode modes barcode = None /\
   r = scan default_mode idle_timeout (current_mode s) false barcode barcode
         extra answer s).
Proof.
  intros barcode r. subst r. unfold process_line. fold barcode.
  destruct (is_empty line) eqn:Hline; [left; now split|right].
  destruct (is_empty barcode) eqn:Hbar; [left; now repeat split|right].
  unfold bind at 1. unfold get_mode at 1.
  destruct (find_mode modes barcode) as [mode|] eqn:Hfind.
  - destruct (trigger_hit mode barcode) eqn:Hhit.
    + left. repeat split. now exists mode.
    + right. left. repeat split.
      destruct (find_mode_prefix barcode mode Hfind Hhit) as (pref & rest & Ef & E).
      exists mode, pref, rest. rewrite Ef.
      repeat (split; [assumption || reflexivity|]).
      destruct (Mode.strip_prefix mode); [|reflexivity].
      rewrite E at 2. now rewrite skipn_app, skipn_all, Nat.sub_diag.
  - right. right. now repeat split.
Qed.

Lemma process_line_mode (line extra : pystr) (answer : sent) (s : Session) :
  timers_ok default_mode idle_timeout s ->
  let r := process_line modes default_mode idle_timeout line extra answer s in
  current_mode (snd r) = current_mode s \/ In (current_mode (snd r)) (values modes).
Proof.
  intros Hok.
  destruct (process_line_cases line extra answer s)
    as [(_ & ->)|[(_ & _ & ->)|[(Hl & Hb & m & Hf & Ht)
       |[(_ & _ & m & pref & rest & _ & _ & _ & _ & ->)|(_ & _ & _ & ->)]]]];
    cbn zeta.
  - now left.
  - now left.
  - right.
    destruct (switch_effect modes default_mode idle_timeout line extra answer s m
                Hl Hb Hf Ht Hok) as (_ & -> & _).
    now apply (find_mode_In _ _ Hf).
  - left. apply scan_frame.
  - left. apply scan_frame.
Qed.

Lemma skipn_clean (n : nat) (l : pystr) : ~ In ESC l -> ~ In ESC (skipn n l).
Proof.
  intros Hl Hin. apply Hl. rewrite <- (firstn_skipn n l).
  apply in_or_app. now right.
Qed.

Lemma scan_sent_clean (effective : Mode.t) (raw_barcode barcode : pystr)
  (s s' : Session) :
  ~ In ESC raw_barcode -> ~ In ESC barcode ->
  scan_sent effective raw_barcode barcode s s' ->
  Forall call_clean (calls s) -> Forall call_clean (calls s').
Proof.
  intros Hraw Hbar [->|(payload & -> & P1 & _ & P3 & P4)] Hall; [assumption|].
  apply Forall_app. split; [assumption|]. constructor; [|constructor].
  unfold call_clean. cbn [Call.payload]. rewrite P1, P3. split; [assumption|]. split.
  - intros raw. destruct (eqb_str raw_barcode barcode); [discriminate|].
    intros E. now inversion E; subst.
  - intros text Et. destruct P4 as [[P4 _]|(t & P4 & _)]; rewrite P4 in Et.
    + discriminate.
    + inversion Et; subst. apply sanitize_input_no_esc.
Qed.

Lemma process_line_clean (line extra : pystr) (answer : sent) (s : Session) :
  timers_ok default_mode idle_timeout s ->
  Forall call_clean (calls s) ->
  Forall call_clean
    (calls (snd (process_line modes default_mode idle_timeout line extra answer s))).
Proof.
  intros Hok Hall.
  pose proof (sanitize_input_no_esc (strip line)) as Hclean.
  destruct (process_line_cases line extra answer s)
    as [(_ & ->)|[(_ & _ & ->)|[(Hl & Hb & m & Hf & Ht)
       |[(_ & _ & m & pref & rest & _ & _ & _ & E & ->)|(_ & _ & _ & ->)]]]].
  - assumption.
  - assumption.
  - destruct (switch_effect modes default_mode idle_timeout line extra answer s m
                Hl Hb Hf Ht Hok) as (_ & _ & _ & _ & -> & _).
    apply Forall_app. split; [assumption|].
    destruct (Mode.enable_trigger_req m); [|constructor].
    constructor; [|constructor]. unfold call_clean. cbn.
    split; [assumption|]. split; discriminate.
  - eapply scan_sent_clean; [exact Hclean| |apply scan_frame|assumption].
    destruct (Mode.strip_prefix m); [|assumption].
    intros Hin. apply Hclean. rewrite E. apply in_or_app. now right.
  - eapply scan_sent_clean; [exact Hclean|exact Hclean|apply scan_frame|assumption].
Qed.




End ReachableFacts.




(** X17. The current mode is always the default mode or one of the modes
    of the dictionary. *)
Theorem reachable_mode_known `{PyRuntime}
  (modes : dict Mode.t) (default_mode : Mode.t) (idle_timeout : option Z)
  (s : Session) :
  reachable modes default_mode idle_timeout s ->
  current_mode s = default_mode \/ In (current_mode s) (values modes).
Proof.
  intros Hr.
  enough (Hboth : timers_ok default_mode idle_timeout s /\
                  (current_mode s = default_mode \/
                   In (current_mode s) (values modes))) by apply Hboth.
  induction Hr as [|s line extra answer s' Hr [IHok IH] Hstep|s t Hr [IHok IH] Hin].
  - split; [apply startup_ok|now left].
  - replace s' with (snd (process_line modes default_mode idle_timeout
                            line extra answer s)) by now rewrite Hstep.
    split; [now apply process_line_ok|].
    destruct (process_line_mode modes default_mode idle_timeout
                line extra answer s IHok) as [E|Hin]; [|now right].
    now rewrite E.
  - split; [now apply timer_fires_ok|].
    unfold timer_fires, _do_timeout, bind, get_mode, put_mode, log_event.
    cbn [current_mode].
    destruct (is_default default_mode (current_mode s)); cbn; [assumption|now left].
Qed.

Lemma reachable_mode_known_witness :
  current_mode example_switched = example_default \/
  In (current_mode example_switched) (values example_modes).
Proof.
  apply (@reachable_mode_known fragment_runtime example_modes example_default
           (Some 5%Z) example_switched).
  apply (@reach_line fragment_runtime example_modes example_default (Some 5%Z)
           (startup example_modes example_default)
           (str "SW" ++ [10%N]) [] (Response true 200 []));
    [apply reach_startup|reflexivity].
Defined.

(** X18. No escape character reaches the transport in the scanned or typed
    text: in every call made to [api.send], the payload's barcode, raw
    barcode and input are free of the escape character. *)
Theorem reachable_calls_clean `{PyRuntime}
  (modes : dict Mode.t) (default_mode : Mode.t) (idle_timeout : option Z)
  (s : Session) :
  reachable modes default_mode idle_timeout s ->
  Forall call_clean (calls s).
Proof.
  intros Hr.
  enough (Hboth : timers_ok default_mode idle_timeout s /\
                  Forall call_clean (calls s)) by apply Hboth.
  induction Hr as [|s line extra answer s' Hr [IHok IH] Hstep|s t Hr [IHok IH] Hin].
  - split; [apply startup_ok|constructor].
  - replace s' with (snd (process_line modes default_mode idle_timeout
                            line extra answer s)) by now rewrite Hstep.
    split; [now apply process_line_ok|now apply process_line_clean].
  - split; [now apply timer_fires_ok|].
    unfold timer_fires, _do_timeout, bind, get_mode, put_mode, log_event.
    cbn [current_mode].
    destruct (is_default default_mode (current_mode s)); cbn; assumption.
Qed.

Lemma reachable_calls_clean_witness : Forall call_clean (calls example_switched).
Proof.
  apply (@reachable_calls_clean fragment_runtime example_modes example_default
           (Some 5%Z) example_switched).
  apply (@reach_line fragment_runtime example_modes example_default (Some 5%Z)
           (startup example_modes example_default)
           (str "SW" ++ [10%N]) [] (Response true 200 []));
    [apply reach_startup|reflexivity].
Defined.








(** X23. [_do_timeout] brings the session to the default mode and is a
    no-op when it is there already: with the current mode the default mode
    (by name) nothing changes and nothing is logged; otherwise the default
    mode becomes current and one revert is logged, the timer fields and the
    calls staying as they are.  Running it again changes nothing. *)
Theorem do_timeout_reverts (default_mode : Mode.t) (reason again : pystr)
  (s : Session) :
  let s' := snd (_do_timeout default_mode reason s) in
  is_default default_mode (current_mode s') = true /\
  (is_default default_mode (current_mode s) = true -> s' = s) /\
  (is_default default_mode (current_mode s) = false ->
   current_mode s' = default_mode /\
   events s' = events s ++ [E_mode_auto_revert (Mode.name default_mode) reason] /\
   idle_timer s' = idle_timer s /\ live_timers s' = live_timers s /\
   calls s' = calls s) /\
  snd (_do_timeout default_mode again s') = s'.
Proof.
  unfold _do_timeout, bind, get_mode, put_mode, log_event, ret.
  destruct (is_default default_mode (current_mode s)) eqn:Ed; cbn [negb fst snd].
  - rewrite Ed. cbn [negb snd]. repeat split; auto; discriminate.
  - cbn [current_mode set_mode add_event]. rewrite is_default_default.
    cbn [negb snd]. repeat split; auto; discriminate.
Qed.

Lemma do_timeout_reverts_witness :
  current_mode (snd (_do_timeout example_default (str "inactivity") example_switched))
  = example_default.
Proof.
  apply (do_timeout_reverts example_default (str "inactivity") (str "inactivity")
           example_switched).
  reflexivity.
Defined.

(** X24. A line that is not the end of the input and is blank, or that
    sanitizing leaves empty (control sequences only), is skipped: nothing is
    resolved, sent or logged and the session is what it was. *)
Theorem blank_line_skipped `{PyRuntime}
  (modes : dict Mode.t) (default_mode : Mode.t) (idle_timeout : option Z)
  (line extra : pystr) (answer : sent) (s : Session) :
  line <> [] ->
  forallb is_space line = true \/ sanitize_input (strip line) = [] ->
  process_line modes default_mode idle_timeout line extra answer s = (Continue, s).
Proof.
  intros Hline Hblank.
  assert (E : sanitize_input (strip line) = []).
  { destruct Hblank as [Hb|E]; [|exact E]. now rewrite (strip_blank line Hb). }
  unfold process_line. destruct line as [|c line]; [congruence|].
  cbn [is_empty]. now rewrite E.
Qed.

Lemma blank_line_skipped_witness :
  @process_line fragment_runtime example_modes example_default (Some 5%Z)
    (ESC :: str "[0m   " ++ [10%N]) [] (Response true 200 []) example_switched
  = (Continue, example_switched).
Proof.
  apply (@blank_line_skipped fragment_runtime); [discriminate|right; reflexivity].
Defined.



Section LogFacts.

Context {R : PyRuntime}.
Variable modes : dict Mode.t.
Variable default_mode : Mode.t.
Variable idle_timeout : option Z.

Lemma scan_events (effective : Mode.t) (ephemeral : bool)
  (raw_barcode barcode extra : pystr) (answer : sent) (s : Session) :
  exists more,
    events (snd (scan default_mode idle_timeout effective ephemeral raw_barcode
                   barcode extra answer s)) = events s ++ more /\
    no_revert more.
Proof.
  unfold scan.
  assert (Hsend : forall payload,
    exists more,
      events (snd ((dispatch effective payload answer ;;
                    (if ephemeral then ret tt
                     else schedule_timeout default_mode idle_timeout) ;;
                    ret Continue) s)) = events s ++ more /\ no_revert more).
  { intros payload.
    destruct (dispatch_effect effective payload answer s) as (_ & _ & e & He & Hnot).
    unfold bind at 1. destruct (dispatch effective payload answer s) as [u s1].
    cbn [snd] in He. exists [e]. split.
    - destruct ephemeral.
      + unfold bind, ret. cbn [snd]. exact He.
      + destruct (schedule_timeout_frame default_mode idle_timeout s1) as (_ & He1 & _).
        unfold bind. destruct (schedule_timeout default_mode idle_timeout s1) as [u1 s2].
        unfold ret. cbn [snd] in *. congruence.
    - intros to_mode reason [E|[]]. now apply (Hnot to_mode reason). }
  destruct (Mode.enable_input effective && negb (is_empty extra))%bool.
  - destruct (input_text effective extra) as [text|e]; [apply Hsend|].
    exists []. unfold ret. cbn [snd]. split; [now rewrite app_nil_r|intros ? ? []].
  - apply Hsend.
Qed.

Lemma switch_events (line extra : pystr) (answer : sent) (s : Session)
  (triggered_mode : Mode.t) :
  is_empty line = false -> is_empty (sanitize_input (strip line)) = false ->
  find_mode modes (sanitize_input (strip line)) = Some triggered_mode ->
  trigger_hit triggered_mode (sanitize_input (strip line)) = true ->
  current_mode
    (snd (process_line modes default_mode idle_timeout line extra answer s))
  = triggered_mode /\
  exists more,
    events (snd (process_line modes default_mode idle_timeout line extra answer s))
    = events s ++ E_mode_switch (Mode.name triggered_mode)
                    (sanitize_input (strip line)) :: more /\
    no_revert more.
Proof.
  intros Hline Hbar Hfind Hhit.
  unfold process_line. rewrite Hline, Hbar.
  cbv beta iota zeta delta [bind get_mode put_mode log_event ret].
  rewrite Hfind, Hhit.
  match goal with
  | |- context [schedule_timeout default_mode idle_timeout ?s2] =>
      destruct (schedule_timeout_frame default_mode idle_timeout s2)
        as (Hm3 & He3 & _);
      destruct (schedule_timeout default_mode idle_timeout s2) as [u s3]
  end.
  cbn [snd current_mode events set_mode add_event] in Hm3, He3.
  destruct (Mode.enable_trigger_req triggered_mode); cbn [negb].
  - match goal with
    | |- context [dispatch triggered_mode ?p answer s3] =>
        destruct (dispatch_effect triggered_mode p answer s3)
          as (Hcore & _ & e & Hev & Hnot);
        destruct (dispatch triggered_mode p answer s3) as [u4 s4]
    end.
    cbn [snd] in *. unfold mode_and_timer in Hcore. injection Hcore as Hm4 _ _ _.
    split; [congruence|]. exists [e]. split.
    + rewrite Hev, He3, <- app_assoc. reflexivity.
    + intros to_mode reason [E|[]]. now apply (Hnot to_mode reason).
  - cbn [snd]. split; [assumption|]. exists []. split; [assumption|intros ? ? []].
Qed.

End LogFacts.

(** X26. The loop body never logs a revert: what it adds to the log has no
    [mode_auto_revert] record (reverts come from the timer only).  And it
    never changes the current mode silently: if the mode after the line
    differs from the mode before, a [mode_switch] record naming the new mode
    is among the records added. *)
Theorem process_line_logs `{PyRuntime}
  (modes : dict Mode.t) (default_mode : Mode.t) (idle_timeout : option Z)
  (line extra : pystr) (answer : sent) (s : Session) :
  let r := process_line modes default_mode idle_timeout line extra answer s in
  exists more,
    events (snd r) = events s ++ more /\
    (forall to_mode reason, ~ In (E_mode_auto_revert to_mode reason) more) /\
    (current_mode (snd r) <> current_mode s ->
     exists token,
       In (E_mode_switch (Mode.name (current_mode (snd r))) token) more).
Proof.
  destruct (process_line_cases modes default_mode idle_timeout line extra answer s)
    as [(_ & Er)|[(_ & _ & Er)|[(Hl & Hb & m & Hf & Ht)
       |[(_ & _ & m & pref & rest & _ & _ & _ & _ & Er)|(_ & _ & _ & Er)]]]];
    cbn zeta.
  - rewrite Er. exists [E_stdin_eof]. cbn [snd]. split; [reflexivity|].
    split; [intros to_mode reason [E|[]]; discriminate E|].
    intros Hneq. now exfalso.
  - rewrite Er. exists []. cbn [snd]. split; [now rewrite app_nil_r|].
    split; [intros ? ? []|]. intros Hneq. now exfalso.
  - destruct (switch_events modes default_mode idle_timeout line extra answer s m
                Hl Hb Hf Ht) as (Hm & more & He & Hno).
    exists (E_mode_switch (Mode.name m) (sanitize_input (strip line)) :: more).
    split; [assumption|]. split.
    + intros to_mode reason [E|Hin]; [discriminate E|]. now apply (Hno to_mode reason).
    + intros _. exists (sanitize_input (strip line)). rewrite Hm. now left.
  - rewrite Er.
    destruct (scan_events default_mode idle_timeout m true
                (sanitize_input (strip line))
                (if Mode.strip_prefix m then rest else sanitize_input (strip line))
                extra answer s) as (more & He & Hno).
    exists more. split; [assumption|]. split; [assumption|].
    intros Hneq. exfalso. apply Hneq. apply scan_frame.
  - rewrite Er.
    destruct (scan_events default_mode idle_timeout (current_mode s) false
                (sanitize_input (strip line)) (sanitize_input (strip line))
                extra answer s) as (more & He & Hno).
    exists more. split; [assumption|]. split; [assumption|].
    intros Hneq. exfalso. apply Hneq. apply scan_frame.
Qed.

Section ClientFacts.

Lemma dict_get_absent {V} (d : dict V) (k : pystr) :
  ~ In k (keys d) -> dict_get d k = None.
Proof.
  induction d as [|[x v] d IH]; simpl; [reflexivity|].
  intros Hno. destruct (eqb_str x k) eqn:E.
  - apply eqb_str_eq in E. exfalso. apply Hno. now left.
  - apply IH. intros Hin. apply Hno. now right.
Qed.

Lemma dict_update_get {V} (extra : dict V) :
  forall (d : dict V) (k : pystr),
    NoDup (keys extra) ->
    dict_get (dict_update d extra) k =
    match dict_get extra k with
    | Some v => Some v
    | None => dict_get d k
    end.
Proof.
  unfold dict_update.
  induction extra as [|[x v] extra IH]; intros d k Hnd; cbn [fold_left fst snd].
  - reflexivity.
  - inversion Hnd as [|? ? Hx Hrest]; subst.
    rewrite (IH _ k Hrest), dict_get_set. cbn [dict_get].
    destruct (eqb_str x k) eqn:E; [|reflexivity].
    apply eqb_str_eq in E. subst x. now rewrite (dict_get_absent extra k Hx).
Qed.

End ClientFacts.

(** X27. The headers of a request are the mode's headers over the default:
    a header of the mode is sent with the mode's value, also when it is
    [Content-Type]; [Content-Type] is [application/json] unless the mode
    sets it; nothing else is sent.  (The keys of a dictionary are distinct.) *)
Theorem send_headers (upper : pystr -> pystr) (base_timeout : Z) (c : Call.t)
  (k : pystr) :
  (forall headers, Call.headers c = Some headers -> NoDup (keys headers)) ->
  dict_get (Request.headers (send upper base_timeout c)) k =
  match
    match Call.headers c with
    | Some headers => dict_get headers k
    | None => None
    end
  with
  | Some v => Some v
  | None =>
      if eqb_str (str "Content-Type") k then Some (str "application/json")
      else None
  end.
Proof.
  intros Hnd. unfold send. cbn [Request.headers].
  destruct (Call.headers c) as [[|h headers]|] eqn:E; try reflexivity.
  rewrite dict_update_get by now apply Hnd. reflexivity.
Qed.

Lemma send_headers_witness :
  dict_get
    (Request.headers
       (send (fun m => m) 10%Z
          {| Call.method := str "POST"; Call.endpoint := str "http://host/scan";
             Call.payload :=
               {| Payload.barcode := str "1"; Payload.mode := str "SCAN";
                  Payload.action := str "scan"; Payload.raw_barcode := None;
                  Payload.input := None |};
             Call.timeout := Some 3%Z;
             Call.headers :=
               Some [(str "X-Token", str "t"); (str "Content-Type", str "text/plain")]
          |}))
    (str "Content-Type")
  = Some (str "text/plain").
Proof.
  rewrite send_headers; [reflexivity|].
  intros headers E. inversion E; subst.
  repeat constructor; cbn; intuition discriminate.
Defined.
